(** * Fathom clustering: [numStrides], [distance], [DistanceMatrix], [clusters]

    A shallow embedding of [src/clusters.js] and the properties it has.

    The DOM the code navigates is the platform's: it is modelled here as a
    finite labelled tree, a JS node reference being the path that leads to
    it.  JS values that can be [undefined], [null] or an object keep that
    three-way distinction, a thrown exception is an explicit outcome, and the
    insertion-ordered [Map] of ES6 is an association list. *)

From Stdlib Require Import String Ascii.
From Stdlib Require Import List ZArith Lia Bool Arith PeanoNat Permutation.
Import ListNotations.
Set Warnings "-register-all,-notation-for-abbreviation".
Open Scope Z_scope.

(** ** Outcomes of JS computations *)

Inductive exn : Type :=
| TypeError
| Error (message : string).

(** [OutOfFuel] is the outcome of a loop of the model whose bound ran out.
    [numStrides] and [distance] never produce it, nor do the matrix and the
    driver on the matrices a run can reach: see [numStrides_counts],
    [distance_returns], [distance_below_ancestor] and [clusters_returns]. *)
Inductive result (A : Type) : Type :=
| Return (a : A)
| Throw (e : exn)
| OutOfFuel.

Arguments Return {A} a.
Arguments Throw {A} e.
Arguments OutOfFuel {A}.

Definition bind {A B : Type} (r : result A) (k : A -> result B) : result B :=
  match r with
  | Return a => k a
  | Throw e => Throw e
  | OutOfFuel => OutOfFuel
  end.

Notation "x <- r ;; k" := (bind r (fun x => k))
  (at level 61, r at next level, right associativity).
Notation "' p <- r ;; k" := (bind r (fun x => let 'p := x in k))
  (at level 61, p pattern, r at next level, right associativity).

(** ** The DOM *)

Module Dom.

(** A document tree.  Only elements have a [tagName] and children. *)
Inductive dom : Type :=
| Element (tagName : string) (childNodes : list dom)
| Text (data : string).

(** A node reference: the child indices that lead to the node, the node's own
    index among its siblings first and the root's child last.  The root is
    [[]].  Two references are the same object ([===]) when they are the same
    path. *)
Definition node : Type := list nat.

Definition node_eq_dec : forall a b : node, {a = b} + {a <> b} :=
  list_eq_dec Nat.eq_dec.

Arguments node_eq_dec : simpl never.

(** What a variable that is meant to hold a node can hold. *)
Inductive jsval : Type :=
| undefined
| null
| ref (n : node).

Definition jsval_eq_dec : forall a b : jsval, {a = b} + {a <> b}.
Proof. decide equality. apply node_eq_dec. Defined.

Arguments jsval_eq_dec : simpl never.

(** [a === b] *)
Definition strictEq (a b : jsval) : bool :=
  if jsval_eq_dec a b then true else false.

(** The subtree a reference denotes, if it denotes one. *)
Fixpoint subtree (doc : dom) (n : node) : option dom :=
  match n with
  | [] => Some doc
  | i :: parent =>
      match subtree doc parent with
      | Some (Element _ children) => nth_error children i
      | _ => None
      end
  end.

Definition childNodes (doc : dom) (n : node) : list dom :=
  match subtree doc n with
  | Some (Element _ children) => children
  | _ => []
  end.

(** [n.parentNode] *)
Definition parentNode (n : node) : jsval :=
  match n with
  | [] => null
  | _ :: parent => ref parent
  end.

(** [n.nextSibling] *)
Definition nextSibling (doc : dom) (n : node) : jsval :=
  match n with
  | [] => null
  | i :: parent =>
      if (S i <? length (childNodes doc parent))%nat then ref (S i :: parent)
      else null
  end.

(** [n.previousSibling] *)
Definition previousSibling (n : node) : jsval :=
  match n with
  | S i :: parent => ref (i :: parent)
  | _ => null
  end.

(** [n.tagName]: [None] is [undefined], what a text node answers. *)
Definition tagName (doc : dom) (n : node) : option string :=
  match subtree doc n with
  | Some (Element t _) => Some t
  | _ => None
  end.

(** [a.contains(b)]: [b] is [a] or a descendant of [a]. *)
Fixpoint contains (a b : node) : bool :=
  if node_eq_dec a b then true
  else match b with
       | [] => false
       | _ :: parent => contains a parent
       end.

(** Tree order of two root-first paths neither of which is a prefix of the
    other: the first index where they differ decides. *)
Fixpoint pathBefore (p q : list nat) : bool :=
  match p, q with
  | i :: p', j :: q' => if (i =? j)%nat then pathBefore p' q' else (i <? j)%nat
  | _, _ => false
  end.

Definition DOCUMENT_POSITION_PRECEDING : Z := 2.
Definition DOCUMENT_POSITION_FOLLOWING : Z := 4.
Definition DOCUMENT_POSITION_CONTAINS : Z := 8.
Definition DOCUMENT_POSITION_CONTAINED_BY : Z := 16.

(** [a.compareDocumentPosition(b)] for two nodes of one tree: the bits say
    where [b] is relative to [a]. *)
Definition compareDocumentPosition (a b : node) : Z :=
  if node_eq_dec a b then 0
  else if contains a b then
    Z.lor DOCUMENT_POSITION_CONTAINED_BY DOCUMENT_POSITION_FOLLOWING
  else if contains b a then
    Z.lor DOCUMENT_POSITION_CONTAINS DOCUMENT_POSITION_PRECEDING
  else if pathBefore (rev a) (rev b) then DOCUMENT_POSITION_FOLLOWING
  else DOCUMENT_POSITION_PRECEDING.

Definition isSpace (c : ascii) : bool :=
  match nat_of_ascii c with
  | 9%nat | 10%nat | 11%nat | 12%nat | 13%nat | 32%nat => true
  | _ => false
  end.

Fixpoint allSpaces (s : string) : bool :=
  match s with
  | EmptyString => true
  | String c rest => isSpace c && allSpaces rest
  end.

(** Modelled from the spec: [isWhitespace] of [./utils], which is not among
    the sources.  The spec calls it the skip predicate, "true for
    whitespace-only or otherwise ignorable nodes": a text node whose data is
    white space only. *)
Definition isWhitespace (doc : dom) (n : node) : bool :=
  match subtree doc n with
  | Some (Text data) => allSpaces data
  | _ => false
  end.

End Dom.

Import Dom.

(** ** [numStrides] *)

(** The first loop of [numStrides], entered with a [sibling] that is a node
    other than [right]:

      while (shouldContinue) {
          sibling = sibling.nextSibling;
          if ((shouldContinue = sibling && sibling !== right) &&
              !isWhitespace(sibling)) { num += 1; }
      }

    It answers the final [sibling] and [num]. *)
Fixpoint walkRight (fuel : nat) (doc : dom) (right : jsval) (sibling : node)
  (num : Z) : result (jsval * Z) :=
  match fuel with
  | O => OutOfFuel
  | S fuel' =>
      let next := nextSibling doc sibling in
      match next with
      | ref s =>
          if strictEq next right then Return (next, num)
          else walkRight fuel' doc right s
                 (if isWhitespace doc s then num else num + 1)
      | _ => Return (next, num)
      end
  end.

(** The second loop, entered with a [sibling] that is a node:

      while (sibling) {
          sibling = sibling.previousSibling;
          if (sibling && !isWhitespace(sibling)) { num += 1; }
      } *)
Fixpoint walkLeft (fuel : nat) (doc : dom) (sibling : node) (num : Z)
  : result Z :=
  match fuel with
  | O => OutOfFuel
  | S fuel' =>
      match previousSibling sibling with
      | ref s =>
          walkLeft fuel' doc s (if isWhitespace doc s then num else num + 1)
      | _ => Return num
      end
  end.

(** The position of a node among its siblings, and how many siblings its
    parent has: the bounds the two walks are run with. *)
Definition siblingIndex (n : node) : nat :=
  match n with
  | [] => O
  | i :: _ => i
  end.

Definition siblingCount (doc : dom) (n : node) : nat :=
  match n with
  | [] => O
  | _ :: parent => length (childNodes doc parent)
  end.

Definition numStrides (doc : dom) (left right : jsval) : result Z :=
  '(sibling, num) <-
    match left with
    | ref l =>
        if strictEq left right then Return (left, 0)
        else walkRight (S (siblingCount doc l)) doc right l 0
    | _ => Return (left, 0)
    end ;;
  if strictEq sibling right then Return num
  else
    match right with
    | ref r => walkLeft (S (siblingIndex r)) doc r num
    | _ => Return num
    end.

(** ** [distance] *)

Definition DIFFERENT_DEPTH_COST : Z := 2.
Definition DIFFERENT_TAG_COST : Z := 2.
Definition SAME_TAG_COST : Z := 1.
Definition STRIDE_COST : Z := 1.

(** A JS array used as a stack is a list whose head is the array's last
    element: [push] conses, [pop] takes the head and answers [undefined] on
    the empty array. *)
Definition pop (stack : list node) : jsval * list node :=
  match stack with
  | [] => (undefined, [])
  | top :: rest => (ref top, rest)
  end.

(** while (!aAncestor.contains(elementB)) {
        aAncestor = aAncestor.parentNode;
        aAncestors.push(aAncestor);
    }

    When [aAncestor] is the root and does not contain [elementB], its
    [parentNode] is [null], and the next test, [null.contains], throws. *)
Fixpoint ascendA (elementB : node) (aAncestor : node) (aAncestors : list node)
  : result (node * list node) :=
  if contains aAncestor elementB then Return (aAncestor, aAncestors)
  else
    match aAncestor with
    | [] => Throw TypeError
    | _ :: parent => ascendA elementB parent (parent :: aAncestors)
    end.

(** do {
        bAncestor = bAncestor.parentNode;
        bAncestors.push(bAncestor);
    } while (bAncestor !== aAncestor);

    When [bAncestor] is the root, its [parentNode] is [null]; [null] is
    pushed, is not [aAncestor], and the next round's [null.parentNode]
    throws. *)
Fixpoint ascendB (aAncestor : node) (bAncestor : node) (bAncestors : list node)
  : result (list node) :=
  match bAncestor with
  | [] => Throw TypeError
  | _ :: parent =>
      if node_eq_dec parent aAncestor then Return (parent :: bAncestors)
      else ascendB aAncestor parent (parent :: bAncestors)
  end.

Definition tag_eq_dec : forall s t : option string, {s = t} + {s <> t}.
Proof. decide equality. apply string_dec. Defined.

Arguments tag_eq_dec : simpl never.

(** The cost of one level of the descent, before strides:

      if (l === undefined || r === undefined) { cost += DIFFERENT_DEPTH_COST; }
      else { cost += l.tagName === r.tagName ? SAME_TAG_COST : DIFFERENT_TAG_COST; }

    [l] and [r] are popped from stacks of nodes, so each is a node or
    [undefined]. *)
Definition levelCost (doc : dom) (l r : jsval) : Z :=
  match l, r with
  | ref ln, ref rn =>
      if tag_eq_dec (tagName doc ln) (tagName doc rn)
      then SAME_TAG_COST else DIFFERENT_TAG_COST
  | _, _ => DIFFERENT_DEPTH_COST
  end.

(** while (left.length || right.length) {
        const l = left.pop();
        const r = right.pop();
        ... cost += level cost ...
        if (mightStride) { cost += numStrides(l, r) * STRIDE_COST; }
    } *)
Fixpoint descend (fuel : nat) (doc : dom) (mightStride : bool)
  (left right : list node) (cost : Z) : result Z :=
  match left, right with
  | [], [] => Return cost
  | _, _ =>
      match fuel with
      | O => OutOfFuel
      | S fuel' =>
          let '(l, left') := pop left in
          let '(r, right') := pop right in
          let cost' := cost + levelCost doc l r in
          strides <- (if mightStride then numStrides doc l r else Return 0) ;;
          descend fuel' doc mightStride left' right'
            (cost' + strides * STRIDE_COST)
      end
  end.

(** [x & bit] as a condition. *)
Definition hasBit (x bit : Z) : bool := negb (Z.land x bit =? 0).

Definition distance (doc : dom) (elementA elementB : node) : result Z :=
  if node_eq_dec elementA elementB then Return 0
  else
    '(aAncestor, aAncestors) <- ascendA elementB elementA [elementA] ;;
    bAncestors <- ascendB aAncestor elementB [elementB] ;;
    let comparison := compareDocumentPosition elementA elementB in
    let '(mightStride, lefts, rights) :=
      if hasBit comparison DOCUMENT_POSITION_FOLLOWING then
        (negb (hasBit comparison DOCUMENT_POSITION_CONTAINED_BY),
         aAncestors, bAncestors)
      else if hasBit comparison DOCUMENT_POSITION_PRECEDING then
        (negb (hasBit comparison DOCUMENT_POSITION_CONTAINS),
         bAncestors, aAncestors)
      else (false, aAncestors, bAncestors) in
    descend (Nat.max (length lefts) (length rights)) doc mightStride
      lefts rights 0.

(** ** A small document to run the code on

    <body>
      <div> <p>a</p> "  " <p>b</p> <span>c</span> </div>
      <ul> <li>d</li> </ul>
    </body> *)
Definition sampleDoc : dom :=
  Element "BODY"
    [ Element "DIV"
        [ Element "P" [Text "a"]; Text "  "; Element "P" [Text "b"];
          Element "SPAN" [Text "c"] ];
      Element "UL" [ Element "LI" [Text "d"] ] ].

Definition nBody : node := [].
Definition nDiv : node := [0%nat].
Definition nP1 : node := [0%nat; 0%nat].
Definition nP2 : node := [2%nat; 0%nat].
Definition nSpan : node := [3%nat; 0%nat].
Definition nUl : node := [1%nat].
Definition nLi : node := [0%nat; 1%nat].

(** ** JS numbers, as far as the matrix needs them *)

Inductive number : Type :=
| Finite (z : Z)
| Infinity
| NaN.

(** [x < y] *)
Definition lt (x y : number) : bool :=
  match x, y with
  | Finite a, Finite b => a <? b
  | Finite _, Infinity => true
  | _, _ => false
  end.

(** [Math.min(x, y)], [None] being an [undefined] argument, which converts
    to [NaN]. *)
Definition Math_min (x y : option number) : number :=
  match x, y with
  | Some (Finite a), Some (Finite b) => Finite (Z.min a b)
  | Some (Finite a), Some Infinity => Finite a
  | Some Infinity, Some (Finite b) => Finite b
  | Some Infinity, Some Infinity => Infinity
  | _, _ => NaN
  end.

(** ** ES6 [Map]: keys in insertion order, each key once *)

Module Map.
Section Map.

Context {K V : Type} (K_eq_dec : forall x y : K, {x = y} + {x <> y}).

Definition t : Type := list (K * V).

Fixpoint get (m : t) (k : K) : option V :=
  match m with
  | [] => None
  | (k', v) :: rest => if K_eq_dec k k' then Some v else get rest k
  end.

(** [set] keeps the place of a key that is there and appends a new one. *)
Fixpoint set (m : t) (k : K) (v : V) : t :=
  match m with
  | [] => [(k, v)]
  | (k', v') :: rest =>
      if K_eq_dec k k' then (k, v) :: rest else (k', v') :: set rest k v
  end.

(** A key is there at most once: [delete] leaves the entries of the other
    keys, in their order. *)
Definition delete (m : t) (k : K) : t :=
  filter (fun entry => if K_eq_dec k (fst entry) then false else true) m.

Definition keys (m : t) : list K := map fst m.
Definition values (m : t) : list V := map snd m.

End Map.
End Map.

(** ** Clusters

    A cluster is a JS array, [[el]] or [[clusterA, clusterB]], and the matrix
    keys its maps by the array object itself.  An array is modelled as its
    contents together with [id], the rank of its allocation in the run: two
    values are the same object exactly when they are equal. *)

Inductive cluster : Type :=
| Singleton (id : nat) (el : node)
| Pair (id : nat) (clusterA clusterB : cluster).

Definition cluster_eq_dec : forall x y : cluster, {x = y} + {x <> y}.
Proof. decide equality; first [apply Nat.eq_dec | apply node_eq_dec]. Defined.

Arguments cluster_eq_dec : simpl never.

Definition idOf (c : cluster) : nat :=
  match c with
  | Singleton id _ => id
  | Pair id _ _ => id
  end.

(** [Array.from(flatten(false, e))] of wu: the nodes of a cluster, left
    subcluster first. *)
Fixpoint flatten (c : cluster) : list node :=
  match c with
  | Singleton _ el => [el]
  | Pair _ clusterA clusterB => flatten clusterA ++ flatten clusterB
  end.

(** ** [DistanceMatrix] *)

Definition row : Type := @Map.t cluster number.

Record DistanceMatrix : Type := {
  _matrix : @Map.t cluster row;
  _numClusters : Z;
  (** how many arrays the run has allocated, the [id] of the next one *)
  allocated : nat
}.

Notation mget := (Map.get cluster_eq_dec).
Notation mset := (Map.set cluster_eq_dec).
Notation mdelete := (Map.delete cluster_eq_dec).
Notation mkeys := Map.keys.
Notation mvalues := Map.values.

(** [elements.map(el => [el])] *)
Definition singletons (from : nat) (elements : list node) : list cluster :=
  map (fun p => Singleton (fst p) (snd p))
    (combine (seq from (length elements)) elements).

(** [distance(outerCluster[0], innerCluster[0])]: element 0 of a cluster
    that is not a singleton is an array, which has no [contains]. *)
Definition distance0 (doc : dom) (outerCluster innerCluster : cluster)
  : result Z :=
  match outerCluster, innerCluster with
  | Singleton _ elementA, Singleton _ elementB => distance doc elementA elementB
  | _, _ => Throw TypeError
  end.

(** for (let innerCluster of this._matrix.keys()) {
        innerMap.set(innerCluster, distance(outerCluster[0], innerCluster[0]));
    } *)
Fixpoint initRow (doc : dom) (outerCluster : cluster)
  (innerClusters : list cluster) (innerMap : row) : result row :=
  match innerClusters with
  | [] => Return innerMap
  | innerCluster :: rest =>
      d <- distance0 doc outerCluster innerCluster ;;
      initRow doc outerCluster rest (mset innerMap innerCluster (Finite d))
  end.

(** for (let outerCluster of clusters) {
        const innerMap = new Map();
        ...
        this._matrix.set(outerCluster, innerMap);
    } *)
Fixpoint initMatrix (doc : dom) (clusters : list cluster)
  (matrix : @Map.t cluster row) : result (@Map.t cluster row) :=
  match clusters with
  | [] => Return matrix
  | outerCluster :: rest =>
      innerMap <- initRow doc outerCluster (mkeys matrix) [] ;;
      initMatrix doc rest (mset matrix outerCluster innerMap)
  end.

(** [new DistanceMatrix(elements)] *)
Definition newDistanceMatrix (doc : dom) (elements : list node)
  : result DistanceMatrix :=
  let clusters := singletons 0 elements in
  matrix <- initMatrix doc clusters [] ;;
  Return {| _matrix := matrix;
            _numClusters := Z.of_nat (length clusters);
            allocated := length clusters |}.

(** What the generator of [closest] yields. *)
Module Yield.
Record t : Type := { a : cluster; b : cluster; distance : number }.
End Yield.

(** for (let [outerKey, row] of self._matrix.entries()) {
        for (let [innerKey, storedDistance] of row.entries()) {
            yield {a: outerKey, b: innerKey, distance: storedDistance};
        }
    } *)
Definition clustersAndDistances (self : DistanceMatrix) : list Yield.t :=
  flat_map
    (fun outer =>
       map (fun inner =>
              {| Yield.a := fst outer; Yield.b := fst inner;
                 Yield.distance := snd inner |})
         (snd outer))
    (_matrix self).

Fixpoint minFrom {A : Type} (by_ : A -> number) (best : A) (items : list A)
  : A :=
  match items with
  | [] => best
  | item :: rest =>
      minFrom by_ (if lt (by_ item) (by_ best) then item else best) rest
  end.

(** Modelled from the spec: [min] of [./utils], which is not among the
    sources.  The spec has [closest] return "the entry with minimum
    distance", and "first minimal entry encountered wins": the items are
    taken in order and an item replaces the best so far only when its key is
    less.  The spec does not say what [min] does with no item at all; the
    model throws, and no theorem below rests on that. *)
Definition min {A : Type} (iterable : list A) (by_ : A -> number) : result A :=
  match iterable with
  | [] => Throw (Error "min of an empty iterable")
  | first :: rest => Return (minFrom by_ first rest)
  end.

Definition tooFewClusters : exn :=
  Error "There must be at least 2 clusters in order to return the closest() ones.".

Definition closest (self : DistanceMatrix) : result Yield.t :=
  if _numClusters self <? 2 then Throw tooFewClusters
  else min (clustersAndDistances self) Yield.distance.

(** [_cachedDistance]: [get] on a missing row is [undefined], and
    [undefined.get] throws; the answer itself can be [undefined]. *)
Definition _cachedDistance (self : DistanceMatrix) (clusterA clusterB : cluster)
  : result (option number) :=
  match mget (_matrix self) clusterA with
  | None => Throw TypeError
  | Some rowA =>
      match mget rowA clusterB with
      | Some ret => Return (Some ret)
      | None =>
          match mget (_matrix self) clusterB with
          | None => Throw TypeError
          | Some rowB => Return (mget rowB clusterA)
          end
      end
  end.

(** for (let outerKey of this._matrix.keys()) {
        if (outerKey !== clusterA && outerKey !== clusterB) {
            newRow.set(outerKey, Math.min(this._cachedDistance(clusterA, outerKey),
                                          this._cachedDistance(clusterB, outerKey)));
        }
    } *)
Fixpoint mergedRow (self : DistanceMatrix) (clusterA clusterB : cluster)
  (outerKeys : list cluster) (newRow : row) : result row :=
  match outerKeys with
  | [] => Return newRow
  | outerKey :: rest =>
      if cluster_eq_dec outerKey clusterA then
        mergedRow self clusterA clusterB rest newRow
      else if cluster_eq_dec outerKey clusterB then
        mergedRow self clusterA clusterB rest newRow
      else
        dA <- _cachedDistance self clusterA outerKey ;;
        dB <- _cachedDistance self clusterB outerKey ;;
        mergedRow self clusterA clusterB rest
          (mset newRow outerKey (Math_min dA dB))
  end.

(** The rows that stay, without their entries for the merged clusters:

      this._matrix.delete(clusterA);
      this._matrix.delete(clusterB);
      for (let inner of this._matrix.values()) {
          inner.delete(clusterA);
          inner.delete(clusterB);
      } *)
Definition trimmedRows (self : DistanceMatrix) (clusterA clusterB : cluster)
  : @Map.t cluster row :=
  map (fun entry => (fst entry, mdelete (mdelete (snd entry) clusterA) clusterB))
    (mdelete (mdelete (_matrix self) clusterA) clusterB).

(** [[clusterA, clusterB]], a new array. *)
Definition mergedCluster (self : DistanceMatrix) (clusterA clusterB : cluster)
  : cluster :=
  Pair (allocated self) clusterA clusterB.

Definition merge (self : DistanceMatrix) (clusterA clusterB : cluster)
  : result DistanceMatrix :=
  newRow <- mergedRow self clusterA clusterB (mkeys (_matrix self)) [] ;;
  Return {| _matrix := mset (trimmedRows self clusterA clusterB)
                         (mergedCluster self clusterA clusterB) newRow;
            _numClusters := _numClusters self - 1;
            allocated := S (allocated self) |}.

Definition numClusters (self : DistanceMatrix) : Z := _numClusters self.

(** [DistanceMatrix.clusters()] *)
Definition matrixClusters (self : DistanceMatrix) : list (list node) :=
  map flatten (mkeys (_matrix self)).

(** ** [clusters]

    while (matrix.numClusters() > 1 &&
           (closest = matrix.closest()).distance < tooFar) {
        matrix.merge(closest.a, closest.b);
    } *)
Fixpoint mergeLoop (fuel : nat) (matrix : DistanceMatrix) (tooFar : number)
  : result DistanceMatrix :=
  if 1 <? numClusters matrix then
    match fuel with
    | O => OutOfFuel
    | S fuel' =>
        nearest <- closest matrix ;;
        if lt (Yield.distance nearest) tooFar then
          matrix' <- merge matrix (Yield.a nearest) (Yield.b nearest) ;;
          mergeLoop fuel' matrix' tooFar
        else Return matrix
    end
  else Return matrix.

Definition clusters (doc : dom) (elements : list node) (tooFar : number)
  : result (list (list node)) :=
  matrix <- newDistanceMatrix doc elements ;;
  final <- mergeLoop (length elements) matrix tooFar ;;
  Return (matrixClusters final).

(** ** The shape of the matrix

    The table is lower triangular: the row of a cluster holds one finite
    distance to each cluster whose row comes before its own, in the order of
    the rows. *)

Definition isFinite (x : number) : Prop := exists z, x = Finite z.

Fixpoint triangular (earlier : list cluster) (rows : @Map.t cluster row)
  : Prop :=
  match rows with
  | [] => True
  | (k, r) :: rest =>
      mkeys r = earlier /\ Forall isFinite (mvalues r) /\
      triangular (earlier ++ [k]) rest
  end.

(** The states of a matrix that its constructor and merges of two distinct
    live clusters lead to. *)
Definition wellFormed (self : DistanceMatrix) : Prop :=
  triangular [] (_matrix self) /\
  NoDup (mkeys (_matrix self)) /\
  _numClusters self = Z.of_nat (length (_matrix self)) /\
  Forall (fun k => (idOf k < allocated self)%nat) (mkeys (_matrix self)).

Definition live (self : DistanceMatrix) (c : cluster) : Prop :=
  In c (mkeys (_matrix self)).

(** The number of stored pair entries. *)
Definition numEntries (self : DistanceMatrix) : Z :=
  Z.of_nat (length (clustersAndDistances self)).

(** The keys of a map after [delete]. *)
Definition without (c : cluster) (ks : list cluster) : list cluster :=
  filter (fun k => if cluster_eq_dec c k then false else true) ks.

(** A sequence of elements in which no element comes after one of its
    proper ancestors. *)
Definition ancestorsLast (elements : list node) : Prop :=
  ForallOrdPairs
    (fun earlier later => later = earlier \/ contains earlier later = false)
    elements.

(** The matrices a run can hold: what the constructor returns, and what
    [merge] of two distinct live clusters returns from such a matrix. *)
Inductive reachable : DistanceMatrix -> Prop :=
| reachable_new (doc : dom) (elements : list node) (self : DistanceMatrix) :
    newDistanceMatrix doc elements = Return self -> reachable self
| reachable_merge (self : DistanceMatrix) (clusterA clusterB : cluster)
    (self' : DistanceMatrix) :
    reachable self -> live self clusterA -> live self clusterB ->
    clusterA <> clusterB ->
    merge self clusterA clusterB = Return self' -> reachable self'.

(** The two parties of an entry. *)
Definition parties (e : Yield.t) : cluster * cluster := (Yield.a e, Yield.b e).

(** ** Sample matrices *)

Definition sampleElements : list node := [nP1; nP2; nSpan; nLi].

(** [new DistanceMatrix(sampleElements)] over [sampleDoc]. *)
Definition sampleMatrix : DistanceMatrix :=
  {| _matrix :=
       [ (Singleton 0 nP1, []);
         (Singleton 1 nP2, [(Singleton 0 nP1, Finite 2)]);
         (Singleton 2 nSpan, [(Singleton 0 nP1, Finite 4);
                              (Singleton 1 nP2, Finite 3)]);
         (Singleton 3 nLi, [(Singleton 0 nP1, Finite 7);
                            (Singleton 1 nP2, Finite 6);
                            (Singleton 2 nSpan, Finite 5)]) ];
     _numClusters := 4;
     allocated := 4 |}.

(** <body> <p>a</p> <p>b</p> <p>c</p> </body>: the first and the third
    entry of its matrix tie. *)
Definition paragraphs : dom :=
  Element "BODY"
    [ Element "P" [Text "a"]; Element "P" [Text "b"]; Element "P" [Text "c"] ].

Definition paragraphsMatrix : DistanceMatrix :=
  {| _matrix :=
       [ (Singleton 0 [0%nat], []);
         (Singleton 1 [1%nat], [(Singleton 0 [0%nat], Finite 2)]);
         (Singleton 2 [2%nat], [(Singleton 0 [0%nat], Finite 3);
                                (Singleton 1 [1%nat], Finite 2)]) ];
     _numClusters := 3;
     allocated := 3 |}.

(** ** What [numStrides] is meant to count

    The words of the spec, over the sibling lists of the document rather than
    over the sibling links: the siblings after a node in order, the siblings
    before it from the nearest back to the first, the part of a walk that
    comes before [right], and the number of nodes of a walk that are not
    skippable. *)

Definition followingSiblings (doc : dom) (n : node) : list node :=
  match n with
  | [] => []
  | i :: parent =>
      map (fun k => k :: parent)
        (seq (S i) (length (childNodes doc parent) - S i))
  end.

Definition precedingSiblings (n : node) : list node :=
  match n with
  | [] => []
  | i :: parent => map (fun k => k :: parent) (rev (seq 0 i))
  end.

Fixpoint visitedBefore (right : jsval) (walk : list node) : list node :=
  match walk with
  | [] => []
  | s :: rest =>
      if strictEq (ref s) right then [] else s :: visitedBefore right rest
  end.

Definition landsOn (right : jsval) (walk : list node) : bool :=
  existsb (fun s => strictEq (ref s) right) walk.

Definition nonSkippable (doc : dom) (walk : list node) : Z :=
  Z.of_nat (length (filter (fun s => negb (isWhitespace doc s)) walk)).

(** The nodes the forward walk visits: none when it starts on [right]. *)
Definition forwardWalk (doc : dom) (left right : jsval) : list node :=
  if strictEq left right then []
  else match left with
       | ref l => visitedBefore right (followingSiblings doc l)
       | _ => []
       end.

(** Whether the forward walk ends on [right]. *)
Definition forwardLands (doc : dom) (left right : jsval) : bool :=
  strictEq left right ||
  match left with
  | ref l => landsOn right (followingSiblings doc l)
  | _ => false
  end.

Definition backwardWalk (right : jsval) : list node :=
  match right with
  | ref r => precedingSiblings r
  | _ => []
  end.

(** ** The two ancestor chains of [distance], as functions of the tree

    [commonAncestor a b] is the nearest ancestor-or-self of [a] that contains
    [b]; [climb anc x stack] is [stack] after every ancestor of [x] up to
    [anc] was pushed on it. *)

Fixpoint commonAncestor (a b : node) : node :=
  if contains a b then a
  else match a with
       | [] => []
       | _ :: parent => commonAncestor parent b
       end.

Fixpoint climb (anc x : node) (stack : list node) : list node :=
  if node_eq_dec x anc then stack
  else match x with
       | [] => stack
       | _ :: parent => climb anc parent (parent :: stack)
       end.

(** ** Further notions the properties below are stated with *)

(** The siblings strictly between the children [i] and [j] of one parent. *)
Definition siblingsBetween (parent : node) (i j : nat) : list node :=
  map (fun k => k :: parent) (seq (S i) (j - S i)).

(** The singleton clusters a cluster was merged from, left to right. *)
Fixpoint leaves (c : cluster) : list cluster :=
  match c with
  | Singleton _ _ => [c]
  | Pair _ clusterA clusterB => leaves clusterA ++ leaves clusterB
  end.

(** The matrices that merges of two distinct live clusters lead to from
    [start]. *)
Inductive mergedFrom (start : DistanceMatrix) : DistanceMatrix -> Prop :=
| mergedFrom_start : mergedFrom start start
| mergedFrom_merge (self : DistanceMatrix) (clusterA clusterB : cluster)
    (self' : DistanceMatrix) :
    mergedFrom start self -> live self clusterA -> live self clusterB ->
    clusterA <> clusterB ->
    merge self clusterA clusterB = Return self' -> mergedFrom start self'.

(** [sampleMatrix] after [merge] of the clusters of its first two
    paragraphs. *)
Definition sampleMerged : DistanceMatrix :=
  Eval vm_compute in
    match merge sampleMatrix (Singleton 1 nP2) (Singleton 0 nP1) with
    | Return self' => self'
    | _ => sampleMatrix
    end.

(** Single linkage: the distance the cache of [self] has for two clusters
    is the least of the distances that [start] has between a leaf of the
    one and a leaf of the other. *)
Definition linked (start self : DistanceMatrix) (X Y : cluster) : Prop :=
  exists d,
    _cachedDistance self X Y = Return (Some (Finite d)) /\
    (exists x y, In x (leaves X) /\ In y (leaves Y) /\
                 _cachedDistance start x y = Return (Some (Finite d))) /\
    (forall x y z, In x (leaves X) -> In y (leaves Y) ->
                   _cachedDistance start x y = Return (Some (Finite z)) ->
                   d <= z).

(** ** Facts about the DOM model *)

Ltac case_node_eq :=
  match goal with
  | |- context [node_eq_dec ?x ?y] => destruct (node_eq_dec x y)
  | H : context [node_eq_dec ?x ?y] |- _ => destruct (node_eq_dec x y)
  end.

Section DomFacts.

Lemma strictEq_refl (v : jsval) : strictEq v v = true.
Proof. unfold strictEq. destruct (jsval_eq_dec v v); congruence. Qed.

Lemma strictEq_true (v w : jsval) : strictEq v w = true -> v = w.
Proof. unfold strictEq. destruct (jsval_eq_dec v w); congruence. Qed.

Lemma contains_refl (a : node) : contains a a = true.
Proof. destruct a; simpl; try case_node_eq; congruence. Qed.

Lemma contains_root (b : node) : contains [] b = true.
Proof.
  induction b as [|i b IH]; simpl; try case_node_eq; congruence.
Qed.

Lemma contains_cons (a : node) (i : nat) (b : node) :
  contains a (i :: b) = if node_eq_dec a (i :: b) then true else contains a b.
Proof. reflexivity. Qed.

Lemma contains_suffix (a b : node) :
  contains a b = true <-> exists l, b = l ++ a.
Proof.
  induction b as [|i b IH].
  - simpl. destruct (node_eq_dec a []) as [->|Hne].
    + split; [exists []; reflexivity | reflexivity].
    + split; [discriminate|]. intros [l Hl].
      symmetry in Hl. apply app_eq_nil in Hl. destruct Hl; contradiction.
  - rewrite contains_cons. destruct (node_eq_dec a (i :: b)) as [->|Hne].
    + split; [exists []; reflexivity | reflexivity].
    + rewrite IH. split.
      * intros [l ->]. exists (i :: l). reflexivity.
      * intros [l Hl]. destruct l as [|j l]; simpl in Hl.
        -- congruence.
        -- injection Hl as _ Hl. exists l. exact Hl.
Qed.

Lemma contains_length (a b : node) :
  contains a b = true -> (length a <= length b)%nat.
Proof.
  rewrite contains_suffix. intros [l ->]. rewrite length_app. lia.
Qed.

Lemma contains_trans (a b c : node) :
  contains a b = true -> contains b c = true -> contains a c = true.
Proof.
  rewrite !contains_suffix. intros [l ->] [l' ->].
  exists (l' ++ l). now rewrite app_assoc.
Qed.

Lemma contains_antisym (a b : node) :
  contains a b = true -> contains b a = true -> a = b.
Proof.
  intros Hab Hba. pose proof (contains_length _ _ Hab) as H1.
  pose proof (contains_length _ _ Hba) as H2.
  apply contains_suffix in Hab. destruct Hab as [l ->].
  rewrite length_app in H2. destruct l; [reflexivity | simpl in H2; lia].
Qed.

Lemma contains_parent (a : node) (i : nat) (b : node) :
  contains a (i :: b) = true -> a <> i :: b -> contains a b = true.
Proof.
  rewrite contains_cons. destruct (node_eq_dec _ _); [contradiction | auto].
Qed.

Lemma contains_child (a : node) (i : nat) (b : node) :
  contains a b = true -> contains a (i :: b) = true.
Proof.
  intros H. rewrite contains_cons. destruct (node_eq_dec _ _); auto.
Qed.

Lemma not_contains_child (i : nat) (b : node) : contains (i :: b) b = false.
Proof.
  destruct (contains (i :: b) b) eqn:E; [|reflexivity].
  apply contains_length in E. simpl in E. lia.
Qed.

(** Two ancestors of one node are comparable. *)
Lemma contains_comparable (a b c : node) :
  contains a c = true -> contains b c = true ->
  contains a b = true \/ contains b a = true.
Proof.
  induction c as [|i c IH]; intros Ha Hb.
  - simpl in Ha, Hb. destruct (node_eq_dec a []) as [->|]; [|discriminate].
    left. apply contains_root.
  - rewrite contains_cons in Ha, Hb.
    destruct (node_eq_dec a (i :: c)) as [->|Hna].
    + destruct (node_eq_dec b (i :: c)) as [->|Hnb].
      * left. apply contains_refl.
      * right. now apply contains_child.
    + destruct (node_eq_dec b (i :: c)) as [->|Hnb].
      * left. now apply contains_child.
      * now apply IH.
Qed.

End DomFacts.

(** ** Facts about [numStrides] *)

Section NumStridesFacts.

Variable doc : dom.

Lemma followingSiblings_step (i : nat) (parent : node) :
  followingSiblings doc (i :: parent) =
  if (S i <? length (childNodes doc parent))%nat
  then (S i :: parent) :: followingSiblings doc (S i :: parent)
  else [].
Proof.
  unfold followingSiblings.
  destruct (Nat.ltb_spec (S i) (length (childNodes doc parent))) as [Hlt|Hge].
  - replace (length (childNodes doc parent) - S i)%nat
      with (S (length (childNodes doc parent) - S (S i)))%nat by lia.
    reflexivity.
  - replace (length (childNodes doc parent) - S i)%nat with O by lia.
    reflexivity.
Qed.

Lemma precedingSiblings_step (i : nat) (parent : node) :
  precedingSiblings (S i :: parent) = (i :: parent) :: precedingSiblings (i :: parent).
Proof.
  unfold precedingSiblings. rewrite seq_S, rev_app_distr. reflexivity.
Qed.

Lemma nonSkippable_cons (s : node) (walk : list node) :
  nonSkippable doc (s :: walk) =
  (if isWhitespace doc s then 0 else 1) + nonSkippable doc walk.
Proof.
  unfold nonSkippable. cbn [filter].
  destruct (isWhitespace doc s); cbn [negb length]; lia.
Qed.

Lemma nonSkippable_nonneg (walk : list node) : 0 <= nonSkippable doc walk.
Proof. unfold nonSkippable. lia. Qed.

(** The forward loop, given one round more than there are siblings left. *)
Lemma walkRight_counts (right : jsval) :
  forall (fuel i : nat) (parent : node) (num : Z),
    (length (childNodes doc parent) - i < fuel)%nat ->
    walkRight fuel doc right (i :: parent) num =
    Return
      (if landsOn right (followingSiblings doc (i :: parent)) then right else null,
       num + nonSkippable doc
               (visitedBefore right (followingSiblings doc (i :: parent)))).
Proof.
  induction fuel as [|fuel IH]; intros i parent num Hfuel; [lia|].
  cbn [walkRight]. rewrite followingSiblings_step. cbn [nextSibling].
  destruct (Nat.ltb_spec (S i) (length (childNodes doc parent))) as [Hlt|Hge].
  - cbn [landsOn existsb visitedBefore].
    destruct (strictEq (ref (S i :: parent)) right) eqn:Eq.
    + apply strictEq_true in Eq. cbn [orb]. rewrite Eq.
      f_equal. f_equal. unfold nonSkippable. cbn [filter length]. lia.
    + cbn [orb]. rewrite IH by lia.
      fold (landsOn right (followingSiblings doc (S i :: parent))).
      f_equal. f_equal. rewrite nonSkippable_cons.
      destruct (isWhitespace doc (S i :: parent)); lia.
  - cbn. f_equal. f_equal. unfold nonSkippable. cbn [filter length]. lia.
Qed.

(** The backward loop, given one round more than the node's index. *)
Lemma walkLeft_counts :
  forall (fuel i : nat) (parent : node) (num : Z),
    (i < fuel)%nat ->
    walkLeft fuel doc (i :: parent) num =
    Return (num + nonSkippable doc (precedingSiblings (i :: parent))).
Proof.
  induction fuel as [|fuel IH]; intros i parent num Hfuel; [lia|].
  cbn [walkLeft]. destruct i as [|i].
  - cbn. f_equal. unfold nonSkippable. cbn. lia.
  - cbn [previousSibling]. rewrite IH by lia. rewrite precedingSiblings_step.
    rewrite nonSkippable_cons. destruct (isWhitespace doc (i :: parent)); f_equal; lia.
Qed.

Lemma walkLeft_root (fuel : nat) (num : Z) :
  walkLeft (S fuel) doc [] num = Return num.
Proof. reflexivity. Qed.

Lemma walkRight_root (fuel : nat) (right : jsval) (num : Z) :
  walkRight (S fuel) doc right [] num = Return (null, num).
Proof. reflexivity. Qed.

Local Arguments walkLeft : simpl never.
Local Arguments walkRight : simpl never.

(** [numStrides] returns, and what it returns. *)
Lemma numStrides_counts (left right : jsval) :
  numStrides doc left right =
  Return (nonSkippable doc (forwardWalk doc left right) +
          (if forwardLands doc left right then 0
           else nonSkippable doc (backwardWalk right))).
Proof.
  unfold numStrides, forwardWalk, forwardLands.
  destruct (strictEq left right) eqn:Eq.
  - apply strictEq_true in Eq. subst right.
    destruct left; cbn; rewrite ?strictEq_refl; reflexivity.
  - destruct left as [| |l].
    + cbn. rewrite Eq. destruct right as [| |r]; cbn.
      * reflexivity.
      * reflexivity.
      * destruct r as [|j q]; [reflexivity|].
        rewrite walkLeft_counts by (simpl; lia). reflexivity.
    + cbn. rewrite Eq. destruct right as [| |r]; cbn.
      * reflexivity.
      * reflexivity.
      * destruct r as [|j q]; [reflexivity|].
        rewrite walkLeft_counts by (simpl; lia). reflexivity.
    + destruct l as [|i p].
      * cbn [siblingCount]. rewrite walkRight_root. cbn. unfold strictEq.
        destruct (jsval_eq_dec null right) as [<-|Hne]; [reflexivity|].
        destruct right as [| |r]; [reflexivity|congruence|].
        destruct r as [|j q]; [reflexivity|].
        rewrite walkLeft_counts by (simpl; lia). reflexivity.
      * rewrite walkRight_counts by (simpl; lia). cbn [bind orb].
        destruct (landsOn right (followingSiblings doc (i :: p))) eqn:Elands.
        -- rewrite strictEq_refl. f_equal. lia.
        -- unfold strictEq.
           assert (Hnil : nonSkippable doc [] = 0) by reflexivity.
           destruct (jsval_eq_dec null right) as [<-|Hne];
             [cbn [backwardWalk]; rewrite Hnil; f_equal; lia|].
           destruct right as [| |r];
             [cbn [backwardWalk]; rewrite Hnil; f_equal; lia|congruence|].
           destruct r as [|j q];
             [cbn [backwardWalk precedingSiblings siblingIndex];
              rewrite walkLeft_root, Hnil; f_equal; lia|].
           rewrite walkLeft_counts by (simpl; lia). reflexivity.
Qed.

Lemma numStrides_nonneg (left right : jsval) (n : Z) :
  numStrides doc left right = Return n -> 0 <= n.
Proof.
  rewrite numStrides_counts. intros [= <-].
  pose proof (nonSkippable_nonneg (forwardWalk doc left right)).
  pose proof (nonSkippable_nonneg (backwardWalk right)).
  destruct (forwardLands doc left right); lia.
Qed.

End NumStridesFacts.

(** ** Facts about [distance] *)

Section DistanceFacts.

Variable doc : dom.

Lemma commonAncestor_contains_left (a b : node) :
  contains (commonAncestor a b) a = true.
Proof.
  induction a as [|i a IH]; cbn [commonAncestor].
  - destruct (contains [] b); apply contains_refl.
  - destruct (contains (i :: a) b).
    + apply contains_refl.
    + now apply contains_child.
Qed.

Lemma commonAncestor_contains_right (a b : node) :
  contains (commonAncestor a b) b = true.
Proof.
  induction a as [|i a IH]; cbn [commonAncestor].
  - destruct (contains [] b) eqn:E; [exact E | apply contains_root].
  - destruct (contains (i :: a) b) eqn:E; [exact E | exact IH].
Qed.

Lemma commonAncestor_nearest (a b c : node) :
  contains c a = true -> contains c b = true ->
  contains c (commonAncestor a b) = true.
Proof.
  induction a as [|i a IH]; cbn [commonAncestor]; intros Ha Hb.
  - destruct (contains [] b); exact Ha.
  - destruct (contains (i :: a) b) eqn:E; [exact Ha|].
    apply IH; [|exact Hb]. apply contains_parent with i; [exact Ha|].
    intros ->. congruence.
Qed.

Lemma commonAncestor_sym (a b : node) :
  commonAncestor a b = commonAncestor b a.
Proof.
  apply contains_antisym; apply commonAncestor_nearest;
    auto using commonAncestor_contains_left, commonAncestor_contains_right.
Qed.

Lemma commonAncestor_of_ancestor (a b : node) :
  contains b a = true -> commonAncestor a b = b.
Proof.
  intros H. apply contains_antisym.
  - apply commonAncestor_contains_right.
  - apply commonAncestor_nearest; [exact H | apply contains_refl].
Qed.

Lemma climb_self (anc : node) (stack : list node) :
  climb anc anc stack = stack.
Proof.
  destruct anc; cbn [climb]; destruct (node_eq_dec _ _); congruence.
Qed.

(** The first loop always ends, on the common ancestor. *)
Lemma ascendA_climbs (b : node) :
  forall (a : node) (stack : list node),
    ascendA b a stack =
    Return (commonAncestor a b, climb (commonAncestor a b) a stack).
Proof.
  induction a as [|i a IH]; intros stack.
  - simpl. rewrite contains_root. reflexivity.
  - cbn [ascendA commonAncestor]. destruct (contains (i :: a) b) eqn:E.
    + now rewrite climb_self.
    + rewrite IH. cbn [climb]. case_node_eq; [|reflexivity].
      exfalso. pose proof (commonAncestor_contains_right a b) as H.
      congruence.
Qed.

(** The second loop ends when it starts strictly below [aAncestor]... *)
Lemma ascendB_climbs (anc : node) :
  forall (b : node) (stack : list node),
    contains anc b = true -> anc <> b ->
    ascendB anc b stack = Return (climb anc b stack).
Proof.
  induction b as [|i b IH]; intros stack Hc Hne.
  - simpl in Hc. case_node_eq; congruence.
  - cbn [ascendB climb]. destruct (node_eq_dec (i :: b) anc); [congruence|].
    pose proof (contains_parent _ _ _ Hc Hne) as Hp.
    destruct (node_eq_dec b anc) as [->|Hnb].
    + now rewrite climb_self.
    + apply IH; [exact Hp | congruence].
Qed.

(** ... and throws when it starts on [aAncestor] or above it: no proper
    ancestor of [bAncestor] is [aAncestor] then, and past the root
    [parentNode] is [null]. *)
Lemma ascendB_throws (anc : node) :
  forall (b : node) (stack : list node),
    (length b <= length anc)%nat ->
    ascendB anc b stack = Throw TypeError.
Proof.
  induction b as [|i b IH]; intros stack Hlen; [reflexivity|].
  cbn [ascendB]. simpl in Hlen.
  destruct (node_eq_dec b anc) as [->|Hne]; [lia|].
  apply IH. lia.
Qed.

Lemma levelCost_pos (l r : jsval) : 1 <= levelCost doc l r.
Proof.
  unfold levelCost, SAME_TAG_COST, DIFFERENT_TAG_COST, DIFFERENT_DEPTH_COST.
  destruct l, r; try lia. destruct (tag_eq_dec _ _); lia.
Qed.

(** The descent ends within as many rounds as the longer stack has nodes,
    and every round costs at least 1. *)
Lemma descend_returns (mightStride : bool) :
  forall (fuel : nat) (lefts rights : list node) (cost : Z),
    (Nat.max (length lefts) (length rights) <= fuel)%nat ->
    exists total,
      descend fuel doc mightStride lefts rights cost = Return total /\
      cost + Z.of_nat (Nat.max (length lefts) (length rights)) <= total.
Proof.
  induction fuel as [|fuel IH]; intros lefts rights cost Hfuel.
  - destruct lefts, rights; simpl in Hfuel; try lia.
    exists cost. split; [reflexivity | simpl; lia].
  - destruct lefts as [|l lefts], rights as [|r rights].
    + exists cost. split; [reflexivity | simpl; lia].
    + cbn [descend pop].
      assert (Hs : exists n, (if mightStride then numStrides doc undefined (ref r)
                              else Return 0) = Return n /\ 0 <= n).
      { destruct mightStride; [|exists 0; split; [reflexivity|lia]].
        rewrite numStrides_counts. eexists. split; [reflexivity|].
        eapply numStrides_nonneg. apply numStrides_counts. }
      destruct Hs as (n & -> & Hn). cbn [bind].
      destruct (IH [] rights (cost + levelCost doc undefined (ref r) + n * STRIDE_COST))
        as (total & Ht & Hle); [simpl in *; lia|].
      exists total. split; [exact Ht|].
      pose proof (levelCost_pos undefined (ref r)). unfold STRIDE_COST in *.
      simpl length in *. lia.
    + cbn [descend pop].
      assert (Hs : exists n, (if mightStride then numStrides doc (ref l) undefined
                              else Return 0) = Return n /\ 0 <= n).
      { destruct mightStride; [|exists 0; split; [reflexivity|lia]].
        rewrite numStrides_counts. eexists. split; [reflexivity|].
        eapply numStrides_nonneg. apply numStrides_counts. }
      destruct Hs as (n & -> & Hn). cbn [bind].
      destruct (IH lefts [] (cost + levelCost doc (ref l) undefined + n * STRIDE_COST))
        as (total & Ht & Hle); [simpl in *; lia|].
      exists total. split; [exact Ht|].
      pose proof (levelCost_pos (ref l) undefined). unfold STRIDE_COST in *.
      simpl length in *. lia.
    + cbn [descend pop].
      assert (Hs : exists n, (if mightStride then numStrides doc (ref l) (ref r)
                              else Return 0) = Return n /\ 0 <= n).
      { destruct mightStride; [|exists 0; split; [reflexivity|lia]].
        rewrite numStrides_counts. eexists. split; [reflexivity|].
        eapply numStrides_nonneg. apply numStrides_counts. }
      destruct Hs as (n & -> & Hn). cbn [bind].
      destruct (IH lefts rights (cost + levelCost doc (ref l) (ref r) + n * STRIDE_COST))
        as (total & Ht & Hle); [simpl in *; lia|].
      exists total. split; [exact Ht|].
      pose proof (levelCost_pos (ref l) (ref r)). unfold STRIDE_COST in *.
      simpl length in *. lia.
Qed.

Lemma climb_length (anc : node) :
  forall (x : node) (stack : list node),
    (length stack <= length (climb anc x stack))%nat.
Proof.
  induction x as [|i x IH]; intros stack; cbn [climb].
  - case_node_eq; lia.
  - case_node_eq; [lia|]. specialize (IH (x :: stack)). simpl in IH. lia.
Qed.

Lemma climb_grows (anc x : node) (stack : list node) :
  contains anc x = true -> anc <> x ->
  (S (length stack) <= length (climb anc x stack))%nat.
Proof.
  intros Hc Hne. destruct x as [|i x].
  - simpl in Hc. case_node_eq; congruence.
  - cbn [climb]. case_node_eq; [congruence|].
    pose proof (climb_length anc x (x :: stack)) as H. simpl in H. lia.
Qed.

Lemma distance_same (a : node) : distance doc a a = Return 0.
Proof. unfold distance. case_node_eq; congruence. Qed.

(** [distance(a, b)] when [b] is a proper ancestor of [a]: the first loop
    stops on [b] itself, and the second, which leaves [b] before it tests,
    climbs past the root. *)
Lemma distance_below_ancestor (a b : node) :
  a <> b -> contains b a = true -> distance doc a b = Throw TypeError.
Proof.
  intros Hne Hc. unfold distance. case_node_eq; [congruence|].
  rewrite ascendA_climbs. cbn [bind].
  rewrite (commonAncestor_of_ancestor _ _ Hc).
  now rewrite ascendB_throws by lia.
Qed.

(** In every other case [distance] returns a number, at least 2 when the
    nodes differ. *)
Lemma distance_returns (a b : node) :
  a = b \/ contains b a = false ->
  exists cost, distance doc a b = Return cost /\ (a <> b -> 2 <= cost).
Proof.
  intros H. destruct (node_eq_dec a b) as [->|Hne].
  { exists 0. split; [apply distance_same | congruence]. }
  destruct H as [|Hc]; [congruence|].
  unfold distance. case_node_eq; [congruence|].
  rewrite ascendA_climbs. cbn [bind].
  set (anc := commonAncestor a b).
  assert (Hb : contains anc b = true) by apply commonAncestor_contains_right.
  assert (Hanc : anc <> b).
  { intros E. pose proof (commonAncestor_contains_left a b) as Ha.
    fold anc in Ha. congruence. }
  rewrite (ascendB_climbs anc b [b] Hb Hanc). cbn [bind].
  pose proof (climb_grows anc b [b] Hb Hanc) as Hlen. simpl in Hlen.
  destruct (hasBit _ DOCUMENT_POSITION_FOLLOWING);
    [|destruct (hasBit _ DOCUMENT_POSITION_PRECEDING)];
    match goal with
    | |- context [descend ?f doc ?m ?l ?r 0] =>
        destruct (descend_returns m f l r 0 (Nat.le_refl _)) as (t & Ht & Hle)
    end; exists t; (split; [exact Ht | intros _; lia]).
Qed.

(** Tree order is total on paths neither of which is a prefix of the
    other. *)
Lemma pathBefore_total :
  forall p q : list nat,
    (exists l, q = p ++ l) \/ (exists l, p = q ++ l) \/
    pathBefore q p = negb (pathBefore p q).
Proof.
  induction p as [|i p IH]; intros q.
  - left. exists q. reflexivity.
  - destruct q as [|j q].
    + right. left. exists (i :: p). reflexivity.
    + cbn [pathBefore]. destruct (Nat.eqb_spec i j) as [->|Hij].
      * rewrite Nat.eqb_refl.
        destruct (IH q) as [[l ->]|[[l ->]|H]].
        -- left. exists l. reflexivity.
        -- right. left. exists l. reflexivity.
        -- right. right. exact H.
      * right. right. destruct (Nat.eqb_spec j i); [congruence|].
        destruct (Nat.ltb_spec i j), (Nat.ltb_spec j i); simpl; try reflexivity; lia.
Qed.

Lemma pathBefore_incomparable (a b : node) :
  contains a b = false -> contains b a = false ->
  pathBefore (rev b) (rev a) = negb (pathBefore (rev a) (rev b)).
Proof.
  intros Hab Hba.
  destruct (pathBefore_total (rev a) (rev b)) as [[l Hl]|[[l Hl]|H]].
  - exfalso. apply (f_equal (@rev nat)) in Hl.
    rewrite rev_app_distr, !rev_involutive in Hl.
    assert (contains a b = true) by (apply contains_suffix; eauto). congruence.
  - exfalso. apply (f_equal (@rev nat)) in Hl.
    rewrite rev_app_distr, !rev_involutive in Hl.
    assert (contains b a = true) by (apply contains_suffix; eauto). congruence.
  - exact H.
Qed.

(** [distance] between two nodes neither of which contains the other: both
    chains climb to the common ancestor, strides count, and the chain of the
    node that comes first in the document is the left one. *)
Lemma distance_incomparable (a b : node) :
  contains a b = false -> contains b a = false ->
  distance doc a b =
  let anc := commonAncestor a b in
  let first := if pathBefore (rev a) (rev b) then a else b in
  let second := if pathBefore (rev a) (rev b) then b else a in
  descend (Nat.max (length (climb anc first [first]))
                   (length (climb anc second [second])))
    doc true (climb anc first [first]) (climb anc second [second]) 0.
Proof.
  intros Hab Hba.
  assert (Hne : a <> b).
  { intros ->. rewrite contains_refl in Hab. discriminate. }
  unfold distance. case_node_eq; [congruence|].
  rewrite ascendA_climbs. cbn [bind].
  rewrite ascendB_climbs.
  - cbn [bind]. unfold compareDocumentPosition.
    case_node_eq; [congruence|]. rewrite Hab, Hba.
    destruct (pathBefore (rev a) (rev b)); reflexivity.
  - apply commonAncestor_contains_right.
  - intros E. pose proof (commonAncestor_contains_left a b) as Ha.
    rewrite E in Ha. congruence.
Qed.

Lemma distance_sym_incomparable (a b : node) :
  contains a b = false -> contains b a = false ->
  distance doc a b = distance doc b a.
Proof.
  intros Hab Hba.
  rewrite (distance_incomparable a b Hab Hba), (distance_incomparable b a Hba Hab).
  rewrite (commonAncestor_sym b a), (pathBefore_incomparable a b Hab Hba).
  destruct (pathBefore (rev a) (rev b)); reflexivity.
Qed.

End DistanceFacts.

(** ** Facts about maps *)

Section MapFacts.

Context {K V : Type} (K_eq_dec : forall x y : K, {x = y} + {x <> y}).

Notation get := (Map.get K_eq_dec).
Notation set := (Map.set K_eq_dec).
Notation delete := (Map.delete K_eq_dec).

Implicit Type m : @Map.t K V.

Lemma set_fresh m (k : K) (v : V) :
  ~ In k (Map.keys m) -> set m k v = m ++ [(k, v)].
Proof.
  induction m as [|[k' v'] m IH]; intros Hk; [reflexivity|].
  cbn [Map.set]. destruct (K_eq_dec k k') as [->|Hne].
  - exfalso. apply Hk. now left.
  - cbn [app]. f_equal. apply IH. intros H. apply Hk. now right.
Qed.

Lemma get_none m (k : K) : ~ In k (Map.keys m) -> get m k = None.
Proof.
  induction m as [|[k' v'] m IH]; intros Hk; [reflexivity|].
  cbn [Map.get]. destruct (K_eq_dec k k') as [->|Hne].
  - exfalso. apply Hk. now left.
  - apply IH. intros H. apply Hk. now right.
Qed.

Lemma get_some m (k : K) :
  In k (Map.keys m) -> exists v, get m k = Some v /\ In (k, v) m.
Proof.
  induction m as [|[k' v'] m IH]; intros Hk; [destruct Hk|].
  cbn [Map.get]. destruct (K_eq_dec k k') as [->|Hne].
  - exists v'. split; [reflexivity | now left].
  - destruct Hk as [Hk|Hk]; [simpl in Hk; congruence|].
    destruct (IH Hk) as (v & Hv & Hin). exists v. split; [exact Hv | now right].
Qed.

Lemma get_in m (k : K) (v : V) : get m k = Some v -> In (k, v) m.
Proof.
  induction m as [|[k' v'] m IH]; [discriminate|].
  cbn [Map.get]. destruct (K_eq_dec k k') as [->|Hne].
  - intros [= ->]. now left.
  - intros H. right. now apply IH.
Qed.

Lemma get_middle m m' (k : K) (v : V) :
  ~ In k (Map.keys m) -> get (m ++ (k, v) :: m') k = Some v.
Proof.
  induction m as [|[k' v'] m IH]; intros Hk; cbn [app Map.get].
  - destruct (K_eq_dec k k); congruence.
  - destruct (K_eq_dec k k') as [->|Hne].
    + exfalso. apply Hk. now left.
    + apply IH. intros H. apply Hk. now right.
Qed.

Lemma keys_app m m' : Map.keys (m ++ m') = Map.keys m ++ Map.keys m'.
Proof. apply map_app. Qed.

Lemma values_app m m' : Map.values (m ++ m') = Map.values m ++ Map.values m'.
Proof. apply map_app. Qed.

Lemma keys_delete m (k : K) :
  Map.keys (delete m k) =
  filter (fun k' => if K_eq_dec k k' then false else true) (Map.keys m).
Proof.
  induction m as [|[k' v'] m IH]; [reflexivity|].
  cbn [Map.delete Map.keys filter map fst].
  destruct (K_eq_dec k k'); cbn [map fst]; [|f_equal]; exact IH.
Qed.

Lemma values_delete_incl m (k : K) (v : V) :
  In v (Map.values (delete m k)) -> In v (Map.values m).
Proof.
  unfold Map.values, Map.delete. rewrite !in_map_iff.
  intros (e & <- & He). apply filter_In in He. exists e. tauto.
Qed.

Lemma get_of_in m (k : K) (v : V) :
  NoDup (Map.keys m) -> In (k, v) m -> get m k = Some v.
Proof.
  induction m as [|[k' v'] m IH]; intros Hnd Hin; [destruct Hin|].
  cbn [Map.keys map fst] in Hnd. inversion Hnd as [|? ? Hk' Hnd']; subst.
  cbn [Map.get]. destruct Hin as [[= -> ->]|Hin].
  - destruct (K_eq_dec k k); congruence.
  - destruct (K_eq_dec k k') as [->|_]; [|now apply IH].
    exfalso. apply Hk'. apply in_map_iff. now exists (k', v).
Qed.

Lemma delete_cons m (k k' : K) (v : V) :
  delete ((k', v) :: m) k =
  if K_eq_dec k k' then delete m k else (k', v) :: delete m k.
Proof. unfold Map.delete. cbn [filter fst]. now destruct (K_eq_dec k k'). Qed.

Lemma get_delete_same m (k : K) : get (delete m k) k = None.
Proof.
  apply get_none. rewrite keys_delete, filter_In.
  intros [_ H]. destruct (K_eq_dec k k); congruence.
Qed.

Lemma get_delete_other m (k k' : K) : k <> k' -> get (delete m k) k' = get m k'.
Proof.
  intros Hne. induction m as [|[k0 v0] m IH]; [reflexivity|].
  cbn [Map.delete filter fst Map.get].
  destruct (K_eq_dec k k0) as [<-|Hk0].
  - destruct (K_eq_dec k' k); [congruence | exact IH].
  - cbn [Map.get]. destruct (K_eq_dec k' k0); [reflexivity | exact IH].
Qed.

End MapFacts.

(** ** Facts about the shape of the matrix *)

Section ShapeFacts.

Implicit Type rows : @Map.t cluster row.

Lemma triangular_app (earlier : list cluster) rows rows' :
  triangular earlier (rows ++ rows') <->
  triangular earlier rows /\ triangular (earlier ++ mkeys rows) rows'.
Proof.
  revert earlier. induction rows as [|[k r] rows IH]; intros earlier.
  - cbn [app triangular Map.keys map]. rewrite app_nil_r. tauto.
  - cbn [app triangular]. rewrite IH.
    replace ((earlier ++ [k]) ++ mkeys rows)
      with (earlier ++ mkeys ((k, r) :: rows))
      by (cbn [Map.keys map fst]; now rewrite <- app_assoc).
    tauto.
Qed.

(** Where the rows of two distinct live clusters are. *)
Lemma two_rows rows (x y : cluster) :
  In x (mkeys rows) -> In y (mkeys rows) -> x <> y ->
  (exists l1 rx l2 ry l3, rows = l1 ++ (x, rx) :: l2 ++ (y, ry) :: l3) \/
  (exists l1 ry l2 rx l3, rows = l1 ++ (y, ry) :: l2 ++ (x, rx) :: l3).
Proof.
  intros Hx Hy Hne. apply in_map_iff in Hx. destruct Hx as ([x' rx] & Ex & Hx).
  cbn in Ex. subst x'. apply in_split in Hx. destruct Hx as (l1 & l2 & ->).
  unfold Map.keys in Hy. rewrite map_app in Hy. apply in_app_or in Hy.
  destruct Hy as [Hy|Hy].
  - right. apply in_map_iff in Hy. destruct Hy as ([y' ry] & Ey & Hy).
    cbn in Ey. subst y'. apply in_split in Hy. destruct Hy as (l0 & l0' & ->).
    exists l0, ry, l0', rx, l2. now rewrite <- app_assoc.
  - left. destruct Hy as [Hy|Hy]; [cbn in Hy; congruence|].
    apply in_map_iff in Hy. destruct Hy as ([y' ry] & Ey & Hy).
    cbn in Ey. subst y'. apply in_split in Hy. destruct Hy as (l0 & l0' & ->).
    now exists l1, rx, l0, ry, l0'.
Qed.

(** What a triangular table says of two of its rows. *)
Lemma triangular_two_rows rows l1 (x : cluster) rx l2 (y : cluster) ry l3 :
  triangular [] rows -> NoDup (mkeys rows) ->
  rows = l1 ++ (x, rx) :: l2 ++ (y, ry) :: l3 ->
  mkeys rx = mkeys l1 /\
  mkeys ry = mkeys l1 ++ x :: mkeys l2 /\
  Forall isFinite (mvalues ry) /\
  mget rows x = Some rx /\ mget rows y = Some ry /\
  mget rx y = None /\ x <> y.
Proof.
  intros Htri Hnd ->.
  assert (Hkeys : mkeys (l1 ++ (x, rx) :: l2 ++ (y, ry) :: l3) =
                  mkeys l1 ++ x :: mkeys l2 ++ y :: mkeys l3).
  { unfold Map.keys. rewrite map_app. cbn [map fst]. now rewrite map_app. }
  rewrite Hkeys in Hnd.
  pose proof (NoDup_remove_2 _ _ _ Hnd) as Hx.
  assert (Hnd' : NoDup ((mkeys l1 ++ x :: mkeys l2) ++ y :: mkeys l3))
    by (now rewrite <- app_assoc).
  pose proof (NoDup_remove_2 _ _ _ Hnd') as Hy.
  apply triangular_app in Htri. destruct Htri as [_ Htri]. cbn [app] in Htri.
  cbn [triangular] in Htri. destruct Htri as (Hrx & _ & Htri).
  apply triangular_app in Htri. destruct Htri as [_ Htri].
  cbn [triangular] in Htri. destruct Htri as (Hry & Hfin & _).
  repeat split.
  - exact Hrx.
  - rewrite Hry. now rewrite <- app_assoc.
  - exact Hfin.
  - apply get_middle. intros H. apply Hx. apply in_or_app. now left.
  - replace (l1 ++ (x, rx) :: l2 ++ (y, ry) :: l3)
      with ((l1 ++ (x, rx) :: l2) ++ (y, ry) :: l3)
      by (now rewrite <- app_assoc).
    apply get_middle. intros H. apply Hy.
    unfold Map.keys in H. rewrite map_app in H. cbn [map fst] in H.
    apply in_or_app. left. exact H.
  - apply get_none. rewrite Hrx. intros H. apply Hy.
    apply in_or_app. left. apply in_or_app. now left.
  - intros ->. apply Hx. apply in_or_app. right. apply in_or_app. right. now left.
Qed.

Lemma in_clustersAndDistances (self : DistanceMatrix) (e : Yield.t) :
  In e (clustersAndDistances self) <->
  exists r, In (Yield.a e, r) (_matrix self) /\
            In (Yield.b e, Yield.distance e) r.
Proof.
  unfold clustersAndDistances. rewrite in_flat_map. split.
  - intros ([k r] & Hr & He). apply in_map_iff in He.
    destruct He as ([k' d] & <- & Hd). cbn. eauto.
  - intros (r & Hr & Hd). exists (Yield.a e, r). split; [exact Hr|].
    apply in_map_iff. exists (Yield.b e, Yield.distance e).
    split; [destruct e; reflexivity | exact Hd].
Qed.

Lemma triangular_entries (earlier : list cluster) rows :
  triangular earlier rows ->
  2 * Z.of_nat (length (clustersAndDistances
                          {| _matrix := rows; _numClusters := 0; allocated := 0 |})) =
  Z.of_nat (length rows) *
  (2 * Z.of_nat (length earlier) + Z.of_nat (length rows) - 1).
Proof.
  unfold clustersAndDistances. cbn [_matrix].
  revert earlier. induction rows as [|[k r] rows IH]; intros earlier Htri.
  - cbn. lia.
  - cbn [triangular] in Htri. destruct Htri as (Hk & _ & Htri).
    specialize (IH _ Htri). rewrite length_app in IH. cbn [length] in IH.
    cbn [flat_map snd length]. rewrite length_app, length_map.
    assert (Hlen : length r = length earlier).
    { rewrite <- Hk. unfold Map.keys. now rewrite length_map. }
    rewrite Hlen. nia.
Qed.

End ShapeFacts.

(** ** Facts about the constructor *)

Section ConstructorFacts.

Variable doc : dom.

Lemma bind_Return {A B : Type} (r : result A) (k : A -> result B) (y : B) :
  bind r k = Return y -> exists x, r = Return x /\ k x = Return y.
Proof. destruct r; cbn; intros H; [eauto | discriminate | discriminate]. Qed.

Lemma singletons_cons (from : nat) (el : node) (elements : list node) :
  singletons from (el :: elements) =
  Singleton from el :: singletons (S from) elements.
Proof. reflexivity. Qed.

Lemma singletons_length (elements : list node) :
  forall from, length (singletons from elements) = length elements.
Proof.
  induction elements as [|el elements IH]; intros from; [reflexivity|].
  rewrite singletons_cons. cbn [length]. now rewrite IH.
Qed.

Lemma singletons_in (elements : list node) :
  forall from c,
    In c (singletons from elements) ->
    exists id el, c = Singleton id el /\ In el elements /\
                  (from <= id < from + length elements)%nat.
Proof.
  induction elements as [|el elements IH]; intros from c Hc; [destruct Hc|].
  rewrite singletons_cons in Hc. destruct Hc as [<-|Hc].
  - exists from, el. cbn [length]. split; [reflexivity|]. split; [now left | lia].
  - destruct (IH _ _ Hc) as (id & el' & -> & Hin & Hid).
    exists id, el'. cbn [length]. split; [reflexivity|]. split; [now right | lia].
Qed.

Lemma singletons_NoDup (elements : list node) :
  forall from, NoDup (singletons from elements).
Proof.
  induction elements as [|el elements IH]; intros from; [constructor|].
  rewrite singletons_cons. constructor; [|apply IH].
  intros Hin. apply singletons_in in Hin.
  destruct Hin as (id & el' & [= <- _] & _ & Hid). lia.
Qed.

Lemma singletons_flatten (elements : list node) :
  forall from, flat_map flatten (singletons from elements) = elements.
Proof.
  induction elements as [|el elements IH]; intros from; [reflexivity|].
  rewrite singletons_cons. cbn [flat_map flatten app]. now rewrite IH.
Qed.

Lemma initRow_shape (outerCluster : cluster) :
  forall (innerClusters : list cluster) (innerMap r : row),
    NoDup (mkeys innerMap ++ innerClusters) ->
    Forall isFinite (mvalues innerMap) ->
    initRow doc outerCluster innerClusters innerMap = Return r ->
    mkeys r = mkeys innerMap ++ innerClusters /\ Forall isFinite (mvalues r).
Proof.
  induction innerClusters as [|k rest IH]; intros innerMap r Hnd Hfin Hrun.
  - cbn in Hrun. injection Hrun as <-. now rewrite app_nil_r.
  - cbn [initRow] in Hrun. apply bind_Return in Hrun.
    destruct Hrun as (d & _ & Hrun).
    rewrite set_fresh in Hrun
      by (intros H; apply (NoDup_remove_2 _ _ _ Hnd); apply in_or_app; now left).
    apply IH in Hrun.
    + rewrite keys_app, <- app_assoc in Hrun. exact Hrun.
    + rewrite keys_app, <- app_assoc. exact Hnd.
    + rewrite values_app. apply Forall_app. split; [exact Hfin|].
      constructor; [now exists d | constructor].
Qed.

Lemma initMatrix_shape :
  forall (cs : list cluster) (matrix final : @Map.t cluster row),
    NoDup (mkeys matrix ++ cs) ->
    triangular [] matrix ->
    initMatrix doc cs matrix = Return final ->
    triangular [] final /\ mkeys final = mkeys matrix ++ cs.
Proof.
  induction cs as [|outer rest IH]; intros matrix final Hnd Htri Hrun.
  - cbn in Hrun. injection Hrun as <-. now rewrite app_nil_r.
  - cbn [initMatrix] in Hrun. apply bind_Return in Hrun.
    destruct Hrun as (innerMap & Hrow & Hrun).
    apply initRow_shape in Hrow;
      [|cbn; exact (NoDup_app_remove_r _ _ Hnd) | constructor].
    destruct Hrow as [Hkeys Hfin]. cbn [Map.keys map app] in Hkeys.
    rewrite set_fresh in Hrun
      by (intros H; apply (NoDup_remove_2 _ _ _ Hnd); apply in_or_app; now left).
    apply IH in Hrun.
    + rewrite keys_app, <- app_assoc in Hrun. exact Hrun.
    + rewrite keys_app, <- app_assoc. exact Hnd.
    + apply triangular_app. split; [exact Htri|].
      cbn [app triangular]. auto.
Qed.

(** A matrix that was constructed is well formed, its rows being the
    singleton clusters of the elements, in order. *)
Lemma newDistanceMatrix_wellFormed (elements : list node) (m : DistanceMatrix) :
  newDistanceMatrix doc elements = Return m ->
  wellFormed m /\ mkeys (_matrix m) = singletons 0 elements.
Proof.
  unfold newDistanceMatrix. intros Hrun. apply bind_Return in Hrun.
  destruct Hrun as (matrix & Hinit & [= <-]).
  apply initMatrix_shape in Hinit;
    [|cbn; apply singletons_NoDup | exact I].
  destruct Hinit as [Htri Hkeys]. cbn [Map.keys map app] in Hkeys.
  split; [|exact Hkeys]. unfold wellFormed. cbn [_matrix _numClusters allocated].
  rewrite Hkeys. repeat split.
  - exact Htri.
  - apply singletons_NoDup.
  - f_equal. rewrite <- Hkeys. unfold Map.keys. now rewrite length_map.
  - apply Forall_forall. intros c Hc. apply singletons_in in Hc.
    destruct Hc as (id & el & -> & _ & Hid). rewrite singletons_length.
    cbn. lia.
Qed.

End ConstructorFacts.

(** ** Facts about [closest] *)

Section ClosestFacts.

Lemma lt_Finite (x y : Z) : lt (Finite x) (Finite y) = (x <? y).
Proof. reflexivity. Qed.

(** [minFrom] keeps the first of the least items: everything before its
    answer is greater, nothing after it is less. *)
Lemma minFrom_first {A : Type} (by_ : A -> number) :
  forall (items pre : list A) (best : A) (post : list A),
    Forall (fun x => isFinite (by_ x)) (pre ++ best :: post ++ items) ->
    (forall x, In x pre -> lt (by_ best) (by_ x) = true) ->
    (forall x, In x post -> lt (by_ x) (by_ best) = false) ->
    exists pre' post',
      pre ++ best :: post ++ items = pre' ++ minFrom by_ best items :: post' /\
      (forall x, In x pre' -> lt (by_ (minFrom by_ best items)) (by_ x) = true) /\
      (forall x, In x post' -> lt (by_ x) (by_ (minFrom by_ best items)) = false).
Proof.
  induction items as [|item rest IH]; intros pre best post Hfin Hpre Hpost.
  - exists pre, post. rewrite app_nil_r. cbn. auto.
  - cbn [minFrom].
    assert (Hall : forall x, In x (pre ++ best :: post ++ item :: rest) ->
                             exists z, by_ x = Finite z).
    { intros x Hx. rewrite Forall_forall in Hfin. exact (Hfin x Hx). }
    destruct (Hall best) as (zb & Eb);
      [apply in_or_app; right; now left|].
    destruct (Hall item) as (zi & Ei).
    { apply in_or_app. right. right. apply in_or_app. right. now left. }
    destruct (lt (by_ item) (by_ best)) eqn:Elt.
    + destruct (IH (pre ++ best :: post) item []) as (pre' & post' & E & H1 & H2).
      * cbn [app]. rewrite <- app_assoc. exact Hfin.
      * intros x Hx. rewrite Ei, Eb, lt_Finite in Elt.
        apply in_app_or in Hx. destruct Hx as [Hx|[<-|Hx]].
        -- destruct (Hall x) as (zx & Ex); [apply in_or_app; now left|].
           specialize (Hpre x Hx). rewrite Ex, Eb, lt_Finite in Hpre.
           rewrite Ei, Ex, lt_Finite. lia.
        -- rewrite Ei, Eb, lt_Finite. exact Elt.
        -- destruct (Hall x) as (zx & Ex).
           { apply in_or_app. right. right. apply in_or_app. now left. }
           specialize (Hpost x Hx). rewrite Ex, Eb, lt_Finite in Hpost.
           rewrite Ei, Ex, lt_Finite. lia.
      * intros x [].
      * exists pre', post'. split; [|auto].
        rewrite <- E. cbn [app]. rewrite <- app_assoc. reflexivity.
    + destruct (IH pre best (post ++ [item])) as (pre' & post' & E & H1 & H2).
      * rewrite <- app_assoc. exact Hfin.
      * exact Hpre.
      * intros x Hx. apply in_app_or in Hx.
        destruct Hx as [Hx|[<-|[]]]; [now apply Hpost | exact Elt].
      * exists pre', post'. split; [|auto].
        rewrite <- E, <- app_assoc. reflexivity.
Qed.

(** The parties of a stored entry are two distinct live clusters, and its
    distance is finite. *)
Lemma entry_live (self : DistanceMatrix) (e : Yield.t) :
  wellFormed self -> In e (clustersAndDistances self) ->
  live self (Yield.a e) /\ live self (Yield.b e) /\
  Yield.a e <> Yield.b e /\ isFinite (Yield.distance e).
Proof.
  intros (Htri & Hnd & _ & _) He. apply in_clustersAndDistances in He.
  destruct He as (r & Hr & Hd). unfold live.
  destruct (in_split _ _ Hr) as (l1 & l2 & E). rewrite E in *.
  apply triangular_app in Htri. destruct Htri as [_ Htri].
  cbn [app triangular] in Htri. destruct Htri as (Hkeys & Hfin & _).
  rewrite keys_app in *. cbn [Map.keys map fst] in *.
  assert (Hb : In (Yield.b e) (map fst l1)).
  { unfold Map.keys in Hkeys. rewrite <- Hkeys.
    apply in_map_iff. now exists (Yield.b e, Yield.distance e). }
  repeat split.
  - apply in_or_app. right. now left.
  - apply in_or_app. now left.
  - intros Eab. apply (NoDup_remove_2 _ _ _ Hnd). apply in_or_app. left.
    now rewrite Eab.
  - rewrite Forall_forall in Hfin. apply Hfin.
    apply in_map_iff. now exists (Yield.b e, Yield.distance e).
Qed.

Lemma wellFormed_entries (self : DistanceMatrix) :
  wellFormed self ->
  2 * numEntries self = numClusters self * (numClusters self - 1).
Proof.
  intros (Htri & _ & Hnum & _). unfold numEntries, numClusters. rewrite Hnum.
  pose proof (triangular_entries [] _ Htri) as H. cbn [length] in H.
  unfold clustersAndDistances in *. cbn [_matrix] in H. lia.
Qed.

(** With two clusters or more [closest] returns: the first of the entries of
    least distance. *)
Lemma closest_first (self : DistanceMatrix) :
  wellFormed self -> 2 <= numClusters self ->
  exists e pre post,
    closest self = Return e /\
    clustersAndDistances self = pre ++ e :: post /\
    (forall x, In x pre -> lt (Yield.distance e) (Yield.distance x) = true) /\
    (forall x, In x post -> lt (Yield.distance x) (Yield.distance e) = false).
Proof.
  intros Hwf Hn. unfold closest. fold (numClusters self).
  destruct (Z.ltb_spec (numClusters self) 2) as [|_]; [lia|].
  pose proof (wellFormed_entries self Hwf) as Hcount. unfold numEntries in Hcount.
  assert (Hfin : Forall (fun x => isFinite (Yield.distance x))
                   (clustersAndDistances self)).
  { apply Forall_forall. intros x Hx. now apply (entry_live self x Hwf). }
  destruct (clustersAndDistances self) as [|first rest] eqn:E.
  { cbn [length] in Hcount. nia. }
  cbn [min].
  destruct (minFrom_first Yield.distance rest [] first []) as (pre & post & Es & H1 & H2).
  - exact Hfin.
  - intros x [].
  - intros x [].
  - cbn [app] in Es. exists (minFrom Yield.distance first rest), pre, post. auto.
Qed.

End ClosestFacts.

(** ** Facts about [merge] *)

Section MergeFacts.

Variable self : DistanceMatrix.
Hypothesis self_wellFormed : wellFormed self.

(** Between two distinct live clusters the cache has a finite distance, and
    [_cachedDistance] finds it, in the row of whichever came later. *)
Lemma cachedDistance_live (x y : cluster) :
  live self x -> live self y -> x <> y ->
  exists z,
    _cachedDistance self x y = Return (Some (Finite z)) /\
    (In {| Yield.a := x; Yield.b := y; Yield.distance := Finite z |}
        (clustersAndDistances self) \/
     In {| Yield.a := y; Yield.b := x; Yield.distance := Finite z |}
        (clustersAndDistances self)).
Proof.
  intros Hx Hy Hne. destruct self_wellFormed as (Htri & Hnd & _ & _).
  unfold _cachedDistance.
  destruct (two_rows _ x y Hx Hy Hne)
    as [(l1 & rx & l2 & ry & l3 & E)|(l1 & ry & l2 & rx & l3 & E)].
  - destruct (triangular_two_rows _ _ _ _ _ _ _ _ Htri Hnd E)
      as (_ & Hky & Hfin & Hgx & Hgy & Hnone & _).
    rewrite Hgx, Hnone, Hgy.
    destruct (get_some cluster_eq_dec ry x) as (v & Hv & Hin).
    { rewrite Hky. apply in_or_app. right. now left. }
    rewrite Hv. rewrite Forall_forall in Hfin.
    destruct (Hfin v) as (z & ->).
    { apply in_map_iff. now exists (x, v). }
    exists z. split; [reflexivity|]. right.
    apply in_clustersAndDistances. exists ry. cbn. split; [|exact Hin].
    rewrite E. apply in_or_app. right. right. apply in_or_app. right. now left.
  - destruct (triangular_two_rows _ _ _ _ _ _ _ _ Htri Hnd E)
      as (_ & Hkx & Hfin & _ & Hgx & _ & _).
    rewrite Hgx.
    destruct (get_some cluster_eq_dec rx y) as (v & Hv & Hin).
    { rewrite Hkx. apply in_or_app. right. now left. }
    rewrite Hv. rewrite Forall_forall in Hfin.
    destruct (Hfin v) as (z & ->).
    { apply in_map_iff. now exists (y, v). }
    exists z. split; [reflexivity|]. left.
    apply in_clustersAndDistances. exists rx. cbn. split; [|exact Hin].
    rewrite E. apply in_or_app. right. right. apply in_or_app. right. now left.
Qed.

Lemma get_app_l (m m' : row) (k : cluster) (v : number) :
  mget m k = Some v -> mget (m ++ m') k = Some v.
Proof.
  induction m as [|[k' v'] m IH]; [discriminate|].
  cbn [app Map.get]. destruct (cluster_eq_dec k k'); auto.
Qed.

Variables clusterA clusterB : cluster.
Hypothesis liveA : live self clusterA.
Hypothesis liveB : live self clusterB.

(** The loop that builds the new row: one entry for each key other than the
    two merged clusters, in the order of the keys. *)
Lemma mergedRow_shape :
  forall (outerKeys : list cluster) (newRow : row),
    (forall k, In k outerKeys -> live self k) ->
    NoDup (mkeys newRow ++ outerKeys) ->
    Forall isFinite (mvalues newRow) ->
    exists final,
      mergedRow self clusterA clusterB outerKeys newRow = Return final /\
      mkeys final = mkeys newRow ++ without clusterB (without clusterA outerKeys) /\
      Forall isFinite (mvalues final) /\
      (forall x v, mget newRow x = Some v -> mget final x = Some v) /\
      (forall x, In x outerKeys -> x <> clusterA -> x <> clusterB ->
         exists dA dB,
           _cachedDistance self clusterA x = Return (Some dA) /\
           _cachedDistance self clusterB x = Return (Some dB) /\
           mget final x = Some (Math_min (Some dA) (Some dB))).
Proof.
  induction outerKeys as [|k rest IH]; intros newRow Hlive Hnd Hfin.
  - exists newRow. cbn. rewrite app_nil_r. repeat split; auto.
    intros x [].
  - assert (Hrest : forall k', In k' rest -> live self k')
      by (intros k' Hk'; apply Hlive; now right).
    assert (Hnd' : NoDup (mkeys newRow ++ rest))
      by (exact (NoDup_remove_1 _ _ _ Hnd)).
    assert (Hfresh : ~ In k (mkeys newRow)).
    { intros H. apply (NoDup_remove_2 _ _ _ Hnd). apply in_or_app. now left. }
    assert (Hk_rest : ~ In k rest).
    { intros H. apply (NoDup_remove_2 _ _ _ Hnd). apply in_or_app. now right. }
    cbn [mergedRow]. unfold without at 2. cbn [filter].
    fold (without clusterA rest).
    destruct (cluster_eq_dec k clusterA) as [->|HkA].
    { destruct (cluster_eq_dec clusterA clusterA); [|congruence].
      destruct (IH newRow Hrest Hnd' Hfin) as (final & Hrun & Hk & Hf & Hold & Hnew).
      exists final. repeat split; auto.
      intros x [<-|Hx] HxA HxB; [congruence | now apply Hnew]. }
    destruct (cluster_eq_dec clusterA k) as [|_]; [congruence|].
    unfold without at 1. cbn [filter].
    fold (without clusterB (without clusterA rest)).
    destruct (cluster_eq_dec k clusterB) as [->|HkB].
    { destruct (cluster_eq_dec clusterB clusterB); [|congruence].
      destruct (IH newRow Hrest Hnd' Hfin) as (final & Hrun & Hk & Hf & Hold & Hnew).
      exists final. repeat split; auto.
      intros x [<-|Hx] HxA HxB; [congruence | now apply Hnew]. }
    destruct (cluster_eq_dec clusterB k) as [|_]; [congruence|].
    destruct (cachedDistance_live clusterA k liveA (Hlive k (or_introl eq_refl)))
      as (zA & HcA & _); [congruence|].
    destruct (cachedDistance_live clusterB k liveB (Hlive k (or_introl eq_refl)))
      as (zB & HcB & _); [congruence|].
    rewrite HcA, HcB. cbn [bind]. rewrite (set_fresh _ _ _ _ Hfresh).
    destruct (IH (newRow ++ [(k, Math_min (Some (Finite zA)) (Some (Finite zB)))]))
      as (final & Hrun & Hk & Hf & Hold & Hnew).
    + exact Hrest.
    + rewrite keys_app, <- app_assoc. exact Hnd.
    + rewrite values_app. apply Forall_app. split; [exact Hfin|].
      constructor; [now exists (Z.min zA zB) | constructor].
    + exists final. split; [exact Hrun|]. split.
      { rewrite Hk, keys_app, <- app_assoc. reflexivity. }
      split; [exact Hf|]. split.
      { intros x v Hv. apply Hold. now apply get_app_l. }
      intros x [<-|Hx] HxA HxB.
      * exists (Finite zA), (Finite zB). split; [exact HcA|]. split; [exact HcB|].
        apply Hold. now apply get_middle.
      * now apply Hnew.
Qed.

Notation trimmedRows := (trimmedRows self clusterA clusterB).
Notation mergedCluster := (mergedCluster self clusterA clusterB).

Lemma without_app (c : cluster) (ks ks' : list cluster) :
  without c (ks ++ ks') = without c ks ++ without c ks'.
Proof. apply filter_app. Qed.

Lemma without_cons (c k : cluster) (ks : list cluster) :
  without c (k :: ks) =
  if cluster_eq_dec c k then without c ks else k :: without c ks.
Proof. unfold without. cbn [filter]. now destruct (cluster_eq_dec c k). Qed.

Lemma without_in (c x : cluster) (ks : list cluster) :
  In x (without c ks) <-> In x ks /\ x <> c.
Proof.
  unfold without. rewrite filter_In.
  destruct (cluster_eq_dec c x); intuition congruence.
Qed.

Lemma keys_trim (rows : @Map.t cluster row) :
  mkeys (map (fun entry => (fst entry,
                            mdelete (mdelete (snd entry) clusterA) clusterB))
           (mdelete (mdelete rows clusterA) clusterB)) =
  without clusterB (without clusterA (mkeys rows)).
Proof.
  transitivity (mkeys (mdelete (mdelete rows clusterA) clusterB)).
  - unfold Map.keys. now rewrite map_map.
  - now rewrite !keys_delete.
Qed.

Lemma triangular_trim :
  forall (rows : @Map.t cluster row) (earlier : list cluster),
    triangular earlier rows ->
    triangular (without clusterB (without clusterA earlier))
      (map (fun entry => (fst entry,
                          mdelete (mdelete (snd entry) clusterA) clusterB))
         (mdelete (mdelete rows clusterA) clusterB)).
Proof.
  induction rows as [|[k r] rows IH]; intros earlier Htri; [exact I|].
  cbn [triangular] in Htri. destruct Htri as (Hk & Hfin & Htri).
  specialize (IH _ Htri). rewrite !without_app in IH.
  rewrite (without_cons clusterA k []) in IH. rewrite delete_cons.
  destruct (cluster_eq_dec clusterA k) as [EA|NA].
  { cbn [without filter] in IH. now rewrite app_nil_r in IH. }
  change (without clusterA []) with (@nil cluster) in IH.
  rewrite (without_cons clusterB k []) in IH. rewrite delete_cons.
  destruct (cluster_eq_dec clusterB k) as [EB|NB].
  { cbn [without filter] in IH. now rewrite app_nil_r in IH. }
  change (without clusterB []) with (@nil cluster) in IH.
  cbn [map fst snd triangular]. split; [|split].
  - rewrite !keys_delete. fold (without clusterA (mkeys r)).
    fold (without clusterB (without clusterA (mkeys r))). now rewrite Hk.
  - apply Forall_forall. intros v Hv. rewrite Forall_forall in Hfin.
    apply Hfin. eapply values_delete_incl, values_delete_incl, Hv.
  - exact IH.
Qed.

Lemma mergedCluster_fresh : ~ In mergedCluster (mkeys (_matrix self)).
Proof.
  destruct self_wellFormed as (_ & _ & _ & Hids). intros H.
  rewrite Forall_forall in Hids. apply Hids in H. cbn in H. lia.
Qed.

(** [merge] of two live clusters returns; what it leaves. *)
Lemma merge_returns :
  exists newRow,
    merge self clusterA clusterB =
    Return {| _matrix := trimmedRows ++ [(mergedCluster, newRow)];
              _numClusters := _numClusters self - 1;
              allocated := S (allocated self) |} /\
    mkeys newRow = without clusterB (without clusterA (mkeys (_matrix self))) /\
    Forall isFinite (mvalues newRow) /\
    (forall x, live self x -> x <> clusterA -> x <> clusterB ->
       exists dA dB,
         _cachedDistance self clusterA x = Return (Some dA) /\
         _cachedDistance self clusterB x = Return (Some dB) /\
         mget newRow x = Some (Math_min (Some dA) (Some dB))).
Proof.
  destruct self_wellFormed as (_ & Hnd & _ & _).
  destruct (mergedRow_shape (mkeys (_matrix self)) [])
    as (newRow & Hrun & Hk & Hf & _ & Hnew).
  - auto.
  - exact Hnd.
  - constructor.
  - exists newRow. unfold merge. rewrite Hrun. cbn [bind].
    rewrite set_fresh.
    + repeat split; auto.
    + unfold trimmedRows. rewrite keys_trim. rewrite !without_in.
      intros [[H _] _]. now apply mergedCluster_fresh.
Qed.

Lemma without_length (c : cluster) (ks : list cluster) :
  NoDup ks -> In c ks -> S (length (without c ks)) = length ks.
Proof.
  induction ks as [|k ks IH]; intros Hnd Hin; [destruct Hin|].
  inversion Hnd as [|? ? Hk Hnd']; subst.
  unfold without. cbn [filter]. fold (without c ks).
  destruct (cluster_eq_dec c k) as [->|Hne].
  - f_equal. cbn [length]. f_equal. unfold without.
    assert (H : forall l, ~ In k l ->
                filter (fun k0 => if cluster_eq_dec k k0 then false else true) l = l).
    { induction l as [|x l IHl]; intros Hx; [reflexivity|]. cbn [filter].
      destruct (cluster_eq_dec k x) as [->|_].
      - exfalso. apply Hx. now left.
      - f_equal. apply IHl. intros H. apply Hx. now right. }
    now rewrite H.
  - cbn [length]. f_equal. apply IH; [exact Hnd'|].
    destruct Hin as [->|Hin]; [congruence | exact Hin].
Qed.

Lemma without_NoDup (c : cluster) (ks : list cluster) :
  NoDup ks -> NoDup (without c ks).
Proof. apply NoDup_filter. Qed.

(** [merge] of two distinct live clusters keeps the matrix well formed, with
    one row fewer. *)
Lemma merge_wellFormed :
  clusterA <> clusterB ->
  exists self',
    merge self clusterA clusterB = Return self' /\
    wellFormed self' /\
    mkeys (_matrix self') =
      without clusterB (without clusterA (mkeys (_matrix self))) ++ [mergedCluster] /\
    S (length (_matrix self')) = length (_matrix self).
Proof.
  intros Hne. destruct merge_returns as (newRow & Hrun & Hk & Hf & _).
  destruct self_wellFormed as (Htri & Hnd & Hnum & Hids).
  eexists. split; [exact Hrun|].
  assert (Hkeys : mkeys (trimmedRows ++ [(mergedCluster, newRow)]) =
                  without clusterB (without clusterA (mkeys (_matrix self))) ++
                  [mergedCluster]).
  { rewrite keys_app. unfold trimmedRows. now rewrite keys_trim. }
  assert (Hlen : S (length (trimmedRows ++ [(mergedCluster, newRow)])) =
                 length (_matrix self)).
  { rewrite <- (length_map fst (trimmedRows ++ _)).
    fold (mkeys (trimmedRows ++ [(mergedCluster, newRow)])). rewrite Hkeys.
    rewrite length_app. cbn [length].
    assert (HB : In clusterB (without clusterA (mkeys (_matrix self))))
      by (apply without_in; split; [exact liveB | congruence]).
    pose proof (without_length clusterB _ (without_NoDup clusterA _ Hnd) HB) as H1.
    pose proof (without_length clusterA _ Hnd liveA) as H2.
    unfold Map.keys in H2 at 2. rewrite length_map in H2. lia. }
  cbn [_matrix]. split; [|split; [exact Hkeys | exact Hlen]].
  unfold wellFormed. cbn [_matrix _numClusters allocated]. rewrite Hkeys.
  repeat split.
  - apply triangular_app. split.
    + exact (triangular_trim _ [] Htri).
    + cbn [app triangular]. unfold trimmedRows. rewrite keys_trim. auto.
  - apply NoDup_app.
    + now apply without_NoDup, without_NoDup.
    + constructor; [intros [] | constructor].
    + intros x Hx [<-|[]]. apply without_in in Hx. destruct Hx as [Hx _].
      apply without_in in Hx. destruct Hx as [Hx _].
      now apply mergedCluster_fresh.
  - lia.
  - apply Forall_app. split.
    + apply Forall_forall. intros x Hx. apply without_in in Hx.
      destruct Hx as [Hx _]. apply without_in in Hx. destruct Hx as [Hx _].
      rewrite Forall_forall in Hids. specialize (Hids x Hx). lia.
    + constructor; [cbn; lia | constructor].
Qed.

End MergeFacts.

(** ** Facts about the driver *)

Section DriverFacts.

Variable doc : dom.

Lemma without_absent (c : cluster) (ks : list cluster) :
  ~ In c ks -> without c ks = ks.
Proof.
  induction ks as [|k ks IH]; intros Hc; [reflexivity|].
  rewrite without_cons. destruct (cluster_eq_dec c k) as [->|_].
  - exfalso. apply Hc. now left.
  - f_equal. apply IH. intros H. apply Hc. now right.
Qed.

Lemma without_Permutation (c : cluster) (ks : list cluster) :
  NoDup ks -> In c ks -> Permutation ks (c :: without c ks).
Proof.
  induction ks as [|k ks IH]; intros Hnd Hin; [destruct Hin|].
  inversion Hnd as [|? ? Hk Hnd']; subst. rewrite without_cons.
  destruct (cluster_eq_dec c k) as [->|Hne].
  - now rewrite without_absent.
  - destruct Hin as [->|Hin]; [congruence|].
    rewrite perm_swap. constructor. now apply IH.
Qed.

(** The nodes of the live clusters are the same before and after a merge. *)
Lemma merge_flatten (ks : list cluster) (id : nat) (clusterA clusterB : cluster) :
  NoDup ks -> In clusterA ks -> In clusterB ks -> clusterA <> clusterB ->
  Permutation
    (flat_map flatten
       (without clusterB (without clusterA ks) ++ [Pair id clusterA clusterB]))
    (flat_map flatten ks).
Proof.
  intros Hnd HA HB Hne.
  assert (HB' : In clusterB (without clusterA ks))
    by (apply without_in; split; [exact HB | congruence]).
  pose proof (without_Permutation clusterA ks Hnd HA) as P1.
  pose proof (without_Permutation clusterB _ (without_NoDup clusterA _ Hnd) HB') as P2.
  rewrite (Permutation_flat_map flatten P1). cbn [flat_map].
  rewrite (Permutation_flat_map flatten P2). cbn [flat_map].
  rewrite flat_map_app. cbn [flat_map flatten]. rewrite app_nil_r.
  rewrite Permutation_app_comm. now rewrite <- app_assoc.
Qed.

(** From a well-formed matrix the loop returns a well-formed matrix over
    the same nodes; with [Infinity] as the limit one cluster is left. *)
Lemma mergeLoop_returns (tooFar : number) :
  forall (fuel : nat) (matrix : DistanceMatrix),
    wellFormed matrix ->
    (length (_matrix matrix) <= S fuel)%nat ->
    exists final,
      mergeLoop fuel matrix tooFar = Return final /\
      wellFormed final /\
      Permutation (flat_map flatten (mkeys (_matrix final)))
                  (flat_map flatten (mkeys (_matrix matrix))) /\
      (tooFar = Infinity -> (1 <= length (_matrix matrix))%nat ->
       length (_matrix final) = 1%nat).
Proof.
  induction fuel as [|fuel IH]; intros matrix Hwf Hlen.
  - exists matrix. destruct Hwf as (Htri & Hnd & Hnum & Hids).
    cbn [mergeLoop]. unfold numClusters. rewrite Hnum.
    destruct (Z.ltb_spec 1 (Z.of_nat (length (_matrix matrix)))); [lia|].
    split; [reflexivity|]. split; [unfold wellFormed; auto|].
    split; [reflexivity|]. intros _ ?. lia.
  - cbn [mergeLoop].
    destruct (Z.ltb_spec 1 (numClusters matrix)) as [Hn|Hn].
    + destruct (closest_first matrix Hwf) as (e & pre & post & Hc & He & _);
        [lia|].
      rewrite Hc. cbn [bind].
      assert (Hin : In e (clustersAndDistances matrix))
        by (rewrite He; apply in_or_app; right; now left).
      destruct (entry_live matrix e Hwf Hin) as (Ha & Hb & Hab & (z & Hz)).
      destruct (merge_wellFormed matrix Hwf _ _ Ha Hb Hab)
        as (matrix' & Hm & Hwf' & Hkeys & Hlen').
      destruct (lt (Yield.distance e) tooFar) eqn:Elt.
      * rewrite Hm. cbn [bind].
        destruct (IH matrix' Hwf') as (final & Hrun & Hwff & Hperm & Hone);
          [lia|].
        exists final. split; [exact Hrun|]. split; [exact Hwff|]. split.
        -- rewrite Hperm, Hkeys. destruct Hwf as (_ & Hnd & _ & _).
           now apply merge_flatten.
        -- intros Hinf _. apply Hone; [exact Hinf|].
           destruct Hwf as (_ & _ & Hnum & _). unfold numClusters in Hn. lia.
      * exists matrix. split; [reflexivity|]. split; [exact Hwf|].
        split; [reflexivity|].
        intros -> _. rewrite Hz in Elt. discriminate.
    + exists matrix. split; [reflexivity|]. split; [exact Hwf|].
      split; [reflexivity|]. intros _ H1.
      destruct Hwf as (_ & _ & Hnum & _). unfold numClusters in Hn. lia.
Qed.

Lemma initRow_returns (outerCluster : cluster) :
  forall (innerClusters : list cluster) (innerMap : row),
    Forall (fun inner => exists d, distance0 doc outerCluster inner = Return d)
      innerClusters ->
    exists r, initRow doc outerCluster innerClusters innerMap = Return r.
Proof.
  induction innerClusters as [|k rest IH]; intros innerMap Hall.
  - now exists innerMap.
  - inversion Hall as [|? ? (d & Hd) Hrest]; subst.
    cbn [initRow]. rewrite Hd. cbn [bind]. now apply IH.
Qed.

Lemma ForallOrdPairs_before {A : Type} (R : A -> A -> Prop) (l1 : list A) x l2 :
  ForallOrdPairs R (l1 ++ x :: l2) -> Forall (fun y => R y x) l1.
Proof.
  induction l1 as [|a l1 IH]; intros H; [constructor|].
  inversion H as [|? ? Ha Hrest]; subst. constructor.
  - rewrite Forall_forall in Ha. apply Ha. apply in_or_app. right. now left.
  - now apply IH.
Qed.

Lemma initMatrix_returns :
  forall (cs : list cluster) (matrix : @Map.t cluster row),
    NoDup (mkeys matrix ++ cs) ->
    ForallOrdPairs
      (fun inner outer => exists d, distance0 doc outer inner = Return d)
      (mkeys matrix ++ cs) ->
    exists final, initMatrix doc cs matrix = Return final.
Proof.
  induction cs as [|outer rest IH]; intros matrix Hnd Hall.
  - now exists matrix.
  - cbn [initMatrix].
    destruct (initRow_returns outer (mkeys matrix) [])
      as (r & ->); [exact (ForallOrdPairs_before _ _ _ _ Hall)|].
    cbn [bind]. rewrite set_fresh
      by (intros H; apply (NoDup_remove_2 _ _ _ Hnd); apply in_or_app; now left).
    apply IH; rewrite keys_app, <- app_assoc; assumption.
Qed.

Lemma singletons_ancestorsLast (elements : list node) :
  ancestorsLast elements ->
  forall from,
    ForallOrdPairs
      (fun inner outer => exists d, distance0 doc outer inner = Return d)
      (singletons from elements).
Proof.
  induction 1 as [|el elements Hel Hrest IH]; intros from; [constructor|].
  rewrite singletons_cons. constructor; [|apply IH].
  apply Forall_forall. intros c Hc. apply singletons_in in Hc.
  destruct Hc as (id & el' & -> & Hin & _).
  rewrite Forall_forall in Hel. specialize (Hel el' Hin). cbn [distance0].
  destruct (distance_returns doc el' el Hel) as (cost & Hcost & _). eauto.
Qed.

(** The constructor returns when no element comes after one of its proper
    ancestors. *)
Lemma newDistanceMatrix_returns (elements : list node) :
  ancestorsLast elements ->
  exists matrix, newDistanceMatrix doc elements = Return matrix.
Proof.
  intros Hsafe. unfold newDistanceMatrix.
  destruct (initMatrix_returns (singletons 0 elements) [])
    as (final & ->).
  - apply singletons_NoDup.
  - now apply singletons_ancestorsLast.
  - cbn [bind]. eauto.
Qed.

(** [clusters] returns whenever the constructor does, and throws what the
    constructor throws. *)
Lemma clusters_returns (elements : list node) (tooFar : number)
  (matrix : DistanceMatrix) :
  newDistanceMatrix doc elements = Return matrix ->
  exists final,
    clusters doc elements tooFar = Return (matrixClusters final) /\
    wellFormed final /\
    Permutation (concat (matrixClusters final)) elements /\
    (tooFar = Infinity -> elements <> [] -> length (matrixClusters final) = 1%nat).
Proof.
  intros Hnew. destruct (newDistanceMatrix_wellFormed doc _ _ Hnew) as [Hwf Hkeys].
  assert (Hlen : length (_matrix matrix) = length elements).
  { rewrite <- (length_map fst). fold (mkeys (_matrix matrix)).
    now rewrite Hkeys, singletons_length. }
  destruct (mergeLoop_returns tooFar (length elements) matrix Hwf)
    as (final & Hrun & Hwff & Hperm & Hone); [lia|].
  exists final. unfold clusters. rewrite Hnew. cbn [bind]. rewrite Hrun.
  cbn [bind]. split; [reflexivity|]. split; [exact Hwff|]. split.
  - unfold matrixClusters. rewrite <- flat_map_concat_map.
    rewrite Hperm, Hkeys, singletons_flatten. reflexivity.
  - intros Hinf Hne. unfold matrixClusters. rewrite length_map.
    unfold Map.keys. rewrite length_map. apply Hone; [exact Hinf|].
    rewrite Hlen. destruct elements; [congruence | cbn; lia].
Qed.

End DriverFacts.

(** ** Two siblings *)

Section SiblingFacts.

Variable doc : dom.

Lemma subtree_index (i : nat) (parent : node) :
  subtree doc (i :: parent) <> None ->
  (i < length (childNodes doc parent))%nat.
Proof.
  unfold childNodes. cbn [subtree].
  destruct (subtree doc parent) as [[t cs|d]|]; try congruence.
  apply nth_error_Some.
Qed.

Lemma followingSiblings_in (i : nat) (parent s : node) :
  In s (followingSiblings doc (i :: parent)) <->
  exists k, s = k :: parent /\ (i < k < length (childNodes doc parent))%nat.
Proof.
  unfold followingSiblings. rewrite in_map_iff. split.
  - intros (k & <- & Hk). apply in_seq in Hk. exists k. split; [reflexivity | lia].
  - intros (k & -> & Hk). exists k. split; [reflexivity|]. apply in_seq. lia.
Qed.

Lemma precedingSiblings_in (i : nat) (parent s : node) :
  In s (precedingSiblings (i :: parent)) <->
  exists k, s = k :: parent /\ (k < i)%nat.
Proof.
  unfold precedingSiblings. rewrite in_map_iff. split.
  - intros (k & <- & Hk). apply in_rev, in_seq in Hk.
    exists k. split; [reflexivity | lia].
  - intros (k & -> & Hk). exists k. split; [reflexivity|].
    apply in_rev. rewrite rev_involutive. apply in_seq. lia.
Qed.

(** Walking forward from a node to a later sibling with only skippable
    nodes between them: the walk lands on it and counts nothing. *)
Lemma forward_to_sibling (parent : node) (j : nat) :
  (j < length (childNodes doc parent))%nat ->
  forall (gap i : nat),
    (i + S gap = j)%nat ->
    (forall k, (i < k < j)%nat -> isWhitespace doc (k :: parent) = true) ->
    landsOn (ref (j :: parent)) (followingSiblings doc (i :: parent)) = true /\
    nonSkippable doc
      (visitedBefore (ref (j :: parent)) (followingSiblings doc (i :: parent))) = 0.
Proof.
  intros Hj. induction gap as [|gap IH]; intros i Hi Hws;
    rewrite followingSiblings_step;
    (destruct (Nat.ltb_spec (S i) (length (childNodes doc parent))); [|lia]);
    cbn [landsOn existsb visitedBefore].
  - replace (S i) with j by lia. rewrite strictEq_refl. auto.
  - destruct (strictEq (ref (S i :: parent)) (ref (j :: parent))) eqn:E.
    + auto.
    + cbn [orb]. rewrite nonSkippable_cons, Hws by lia.
      apply IH; [lia|]. intros k Hk. apply Hws. lia.
Qed.

Lemma numStrides_to_sibling (parent : node) (i j : nat) :
  (i < j)%nat -> (j < length (childNodes doc parent))%nat ->
  (forall k, (i < k < j)%nat -> isWhitespace doc (k :: parent) = true) ->
  numStrides doc (ref (i :: parent)) (ref (j :: parent)) = Return 0.
Proof.
  intros Hij Hj Hws. rewrite numStrides_counts.
  unfold forwardWalk, forwardLands.
  assert (E : strictEq (ref (i :: parent)) (ref (j :: parent)) = false).
  { destruct (strictEq _ _) eqn:E; [|reflexivity].
    apply strictEq_true in E. injection E as E. lia. }
  rewrite E. cbn [orb].
  destruct (forward_to_sibling parent j Hj (j - S i) i) as [-> ->];
    [lia | exact Hws | reflexivity].
Qed.

Lemma numStrides_same (n : node) : numStrides doc (ref n) (ref n) = Return 0.
Proof.
  rewrite numStrides_counts. unfold forwardWalk, forwardLands.
  now rewrite strictEq_refl.
Qed.

Lemma pathBefore_last (l : list nat) (i j : nat) :
  pathBefore (l ++ [i]) (l ++ [j]) = (i <? j)%nat.
Proof.
  induction l as [|k l IH]; cbn [app pathBefore].
  - destruct (Nat.eqb_spec i j) as [->|]; [|reflexivity].
    symmetry. apply Nat.ltb_irrefl.
  - now rewrite Nat.eqb_refl.
Qed.

Lemma commonAncestor_self (a b : node) :
  contains a b = true -> commonAncestor a b = a.
Proof. intros H. destruct a; cbn [commonAncestor]; now rewrite H. Qed.

Lemma siblings_incomparable (parent : node) (i j : nat) :
  i <> j -> contains (i :: parent) (j :: parent) = false.
Proof.
  intros Hij. rewrite contains_cons.
  destruct (node_eq_dec (i :: parent) (j :: parent)) as [E|_];
    [congruence | apply not_contains_child].
Qed.

Lemma climb_child (parent : node) (i : nat) :
  climb parent (i :: parent) [i :: parent] = [parent; i :: parent].
Proof.
  cbn [climb]. destruct (node_eq_dec (i :: parent) parent) as [E|_].
  - apply (f_equal (@length nat)) in E. cbn in E. lia.
  - apply climb_self.
Qed.

(** [distance] between two siblings: one level for the parent, which is on
    both stacks, and one for the two nodes themselves. *)
Lemma distance_siblings (parent : node) (i j : nat) :
  i <> j ->
  subtree doc (i :: parent) <> None -> subtree doc (j :: parent) <> None ->
  (forall k, (Nat.min i j < k < Nat.max i j)%nat ->
             isWhitespace doc (k :: parent) = true) ->
  distance doc (i :: parent) (j :: parent) =
  Return (SAME_TAG_COST + levelCost doc (ref (i :: parent)) (ref (j :: parent))).
Proof.
  intros Hij Hi Hj Hws.
  apply subtree_index in Hi. apply subtree_index in Hj.
  rewrite distance_incomparable by (apply siblings_incomparable; congruence).
  cbv zeta.
  assert (Hanc : commonAncestor (i :: parent) (j :: parent) = parent).
  { cbn [commonAncestor]. rewrite siblings_incomparable by exact Hij.
    apply commonAncestor_self, contains_child, contains_refl. }
  rewrite Hanc. cbn [rev]. rewrite pathBefore_last.
  assert (Hparent : levelCost doc (ref parent) (ref parent) = SAME_TAG_COST).
  { unfold levelCost. destruct (tag_eq_dec _ _); congruence. }
  destruct (Nat.ltb_spec i j) as [Hlt|Hge]; rewrite !climb_child;
    cbn [length Nat.max descend pop]; rewrite numStrides_same; cbn [bind];
    rewrite Hparent.
  - rewrite numStrides_to_sibling; [cbn [bind]; f_equal; unfold STRIDE_COST; lia
                                   | exact Hlt | exact Hj |].
    intros k Hk. apply Hws. lia.
  - rewrite numStrides_to_sibling; [cbn [bind] | lia | exact Hi |].
    + f_equal. unfold STRIDE_COST, levelCost.
      destruct (tag_eq_dec _ _), (tag_eq_dec _ _); congruence || lia.
    + intros k Hk. apply Hws. lia.
Qed.

End SiblingFacts.

(** ** Facts about the reachable matrices *)

Section ReachableFacts.

Lemma reachable_wellFormed (self : DistanceMatrix) :
  reachable self -> wellFormed self.
Proof.
  induction 1 as [doc elements self Hnew | self A B self' _ IH HA HB Hne Hm].
  - now apply (newDistanceMatrix_wellFormed doc elements).
  - destruct (merge_wellFormed self IH A B HA HB Hne) as (m' & Hm' & Hwf & _).
    congruence.
Qed.

Lemma sampleMatrix_new :
  newDistanceMatrix sampleDoc sampleElements = Return sampleMatrix.
Proof. reflexivity. Qed.

Lemma paragraphsMatrix_new :
  newDistanceMatrix paragraphs [[0%nat]; [1%nat]; [2%nat]] =
  Return paragraphsMatrix.
Proof. reflexivity. Qed.

Lemma sampleMatrix_wellFormed : wellFormed sampleMatrix.
Proof. exact (reachable_wellFormed _ (reachable_new _ _ _ sampleMatrix_new)). Qed.

Lemma paragraphsMatrix_wellFormed : wellFormed paragraphsMatrix.
Proof.
  exact (reachable_wellFormed _ (reachable_new _ _ _ paragraphsMatrix_new)).
Qed.

Lemma in_parties (rows : @Map.t cluster row) (p : cluster * cluster) :
  In p (map parties
          (clustersAndDistances
             {| _matrix := rows; _numClusters := 0; allocated := 0 |})) ->
  In (fst p) (mkeys rows).
Proof.
  rewrite in_map_iff. intros (e & <- & He).
  apply in_clustersAndDistances in He. destruct He as (r & Hr & _).
  cbn [_matrix] in Hr. cbn. apply in_map_iff. now exists (Yield.a e, r).
Qed.

(** No two stored entries have the same parties. *)
Lemma triangular_parties_NoDup :
  forall (rows : @Map.t cluster row) (earlier : list cluster),
    triangular earlier rows -> NoDup (earlier ++ mkeys rows) ->
    NoDup (map parties
             (clustersAndDistances
                {| _matrix := rows; _numClusters := 0; allocated := 0 |})).
Proof.
  induction rows as [|[k r] rows IH]; intros earlier Htri Hnd; [constructor|].
  cbn [triangular] in Htri. destruct Htri as (Hk & _ & Htri).
  unfold clustersAndDistances. cbn [_matrix flat_map fst snd].
  rewrite map_app, map_map. apply NoDup_app.
  - unfold parties. cbn [Yield.a Yield.b].
    assert (Hr : NoDup (mkeys r))
      by (rewrite Hk; exact (NoDup_app_remove_r _ _ Hnd)).
    clear - Hr. induction r as [|[k' d] r IHr]; [constructor|].
    inversion Hr as [|? ? Hk' Hr']; subst. cbn [map fst]. constructor.
    + rewrite in_map_iff. intros ([k2 d2] & [= E] & Hin). apply Hk'.
      cbn in E. subst k2. apply in_map_iff. now exists (k', d2).
    + now apply IHr.
  - apply (IH (earlier ++ [k])); [exact Htri|].
    rewrite <- app_assoc. exact Hnd.
  - intros p H1 H2. apply in_map_iff in H1. destruct H1 as ([k' d] & <- & _).
    apply in_parties in H2. cbn in H2.
    apply (NoDup_remove_2 _ _ _ Hnd). apply in_or_app. now right.
Qed.

Lemma distance_throws_TypeError (doc : dom) (a b : node) (e : exn) :
  distance doc a b = Throw e -> e = TypeError.
Proof.
  destruct (node_eq_dec a b) as [Eab|Hne].
  - destruct (distance_returns doc a b (or_introl Eab)) as (c & -> & _).
    discriminate.
  - destruct (contains b a) eqn:E.
    + rewrite (distance_below_ancestor doc a b Hne E). congruence.
    + destruct (distance_returns doc a b (or_intror E)) as (c & -> & _).
      discriminate.
Qed.

Lemma initRow_throws_TypeError (doc : dom) (outer : cluster) (e : exn) :
  forall (inners : list cluster) (acc : row),
    initRow doc outer inners acc = Throw e -> e = TypeError.
Proof.
  induction inners as [|k rest IH]; intros acc; [discriminate|].
  cbn [initRow]. destruct (distance0 doc outer k) as [d|e'|] eqn:Ed; cbn [bind].
  - apply IH.
  - intros [= <-]. unfold distance0 in Ed.
    destruct outer, k; try congruence. now apply distance_throws_TypeError in Ed.
  - discriminate.
Qed.

Lemma initMatrix_throws_TypeError (doc : dom) (e : exn) :
  forall (cs : list cluster) (matrix : @Map.t cluster row),
    initMatrix doc cs matrix = Throw e -> e = TypeError.
Proof.
  induction cs as [|outer rest IH]; intros matrix; [discriminate|].
  cbn [initMatrix].
  destruct (initRow doc outer (mkeys matrix) []) as [r|e'|] eqn:Er; cbn [bind].
  - apply IH.
  - intros [= <-]. now apply initRow_throws_TypeError in Er.
  - discriminate.
Qed.

Lemma clusters_throws_TypeError (doc : dom) (elements : list node)
  (tooFar : number) (e : exn) :
  clusters doc elements tooFar = Throw e -> e = TypeError.
Proof.
  destruct (newDistanceMatrix doc elements) as [m|e'|] eqn:Enew.
  - destruct (clusters_returns doc elements tooFar m Enew) as (final & -> & _).
    discriminate.
  - unfold clusters. rewrite Enew. cbn [bind]. intros [= <-].
    unfold newDistanceMatrix in Enew.
    destruct (initMatrix doc (singletons 0 elements) []) as [r|e''|] eqn:Ei;
      cbn [bind] in Enew; try discriminate.
    injection Enew as <-. now apply initMatrix_throws_TypeError in Ei.
  - unfold clusters. rewrite Enew. discriminate.
Qed.

End ReachableFacts.

(** * Main results *)

(** ** The distance metric *)

(** C1.  [distance a b] and [distance b a] are the same between two nodes
    neither of which contains the other.  Symmetry "even when one of the two
    nodes is an ancestor of the other" is what the code does not have:
    whenever [a] is a proper ancestor of [b], [distance a b] returns a cost
    and [distance b a] throws a [TypeError]. *)
Theorem distance_symmetric_unless_ancestor (doc : dom) (a b : node) :
  (contains a b = false -> contains b a = false ->
   distance doc a b = distance doc b a) /\
  (a <> b -> contains a b = true ->
   (exists cost, distance doc a b = Return cost) /\
   distance doc b a = Throw TypeError).
Proof.
  split.
  - apply distance_sym_incomparable.
  - intros Hne Hc. split.
    + destruct (distance_returns doc a b) as (cost & Hcost & _); [|eauto].
      right. destruct (contains b a) eqn:E; [|reflexivity].
      exfalso. apply Hne. now apply contains_antisym.
    + apply distance_below_ancestor; [congruence | exact Hc].
Qed.

Lemma distance_symmetric_unless_ancestor_witness :
  distance sampleDoc nP1 nLi = distance sampleDoc nLi nP1 /\
  (exists cost, distance sampleDoc nDiv nP1 = Return cost) /\
  distance sampleDoc nP1 nDiv = Throw TypeError.
Proof.
  split.
  - apply (proj1 (distance_symmetric_unless_ancestor sampleDoc nP1 nLi));
      reflexivity.
  - apply (proj2 (distance_symmetric_unless_ancestor sampleDoc nDiv nP1));
      [discriminate | reflexivity].
Defined.

(** C2.  [distance nodeA nodeB] returns a number exactly when [nodeB] is not
    a proper ancestor of [nodeA]; when it is, the walk up from [nodeB]
    starts on the common ancestor, never meets it again, and throws a
    [TypeError] past the root.  The claim that [distance] returns for every
    pair, "including pairs where nodeB is an ancestor of nodeA", fails
    there. *)
Theorem distance_returns_unless_below_ancestor (doc : dom) (a b : node) :
  (a = b \/ contains b a = false -> exists cost, distance doc a b = Return cost) /\
  (a <> b -> contains b a = true -> distance doc a b = Throw TypeError).
Proof.
  split.
  - intros H. destruct (distance_returns doc a b H) as (cost & Hcost & _). eauto.
  - apply distance_below_ancestor.
Qed.

Lemma distance_returns_unless_below_ancestor_witness :
  (exists cost, distance sampleDoc nP1 nP2 = Return cost) /\
  distance sampleDoc nP1 nDiv = Throw TypeError.
Proof.
  split.
  - apply (proj1 (distance_returns_unless_below_ancestor sampleDoc nP1 nP2)).
    right. reflexivity.
  - apply (proj2 (distance_returns_unless_below_ancestor sampleDoc nP1 nDiv));
      [discriminate | reflexivity].
Defined.

(** C3, as the spec has it, fails: two [P] siblings with only a white-space
    text between them are at distance 2, not 1. *)
Lemma siblings_same_tag_distance_not_1 :
  nP1 <> nP2 /\ parentNode nP1 = parentNode nP2 /\
  tagName sampleDoc nP1 = tagName sampleDoc nP2 /\
  nonSkippable sampleDoc (forwardWalk sampleDoc (ref nP1) (ref nP2)) = 0 /\
  forwardLands sampleDoc (ref nP1) (ref nP2) = true /\
  distance sampleDoc nP1 nP2 = Return 2 /\
  distance sampleDoc nP1 nP2 <> Return 1.
Proof. repeat split; try reflexivity; discriminate. Qed.

(** C3, amended.  For every two distinct sibling nodes of the document that
    have the same tag and only skippable nodes between them, [distance]
    returns exactly 2: the same-tag cost once for the level of their parent,
    which is on both stacks, and once for their own level. *)
Theorem siblings_same_tag_distance (doc : dom) (parent : node) (i j : nat) :
  i <> j ->
  subtree doc (i :: parent) <> None -> subtree doc (j :: parent) <> None ->
  tagName doc (i :: parent) = tagName doc (j :: parent) ->
  (forall k, (Nat.min i j < k < Nat.max i j)%nat ->
             isWhitespace doc (k :: parent) = true) ->
  distance doc (i :: parent) (j :: parent) = Return 2.
Proof.
  intros Hij Hi Hj Htag Hws.
  rewrite (distance_siblings doc parent i j Hij Hi Hj Hws).
  unfold levelCost. destruct (tag_eq_dec _ _); [reflexivity | congruence].
Qed.

Lemma siblings_same_tag_distance_witness :
  distance sampleDoc (0%nat :: nDiv) (2%nat :: nDiv) = Return 2.
Proof.
  apply (siblings_same_tag_distance sampleDoc nDiv 0 2).
  - discriminate.
  - discriminate.
  - discriminate.
  - reflexivity.
  - intros k Hk. assert (k = 1%nat) as -> by (simpl in Hk; lia). reflexivity.
Defined.

(** C10.  For every pair of distinct nodes on which [distance] returns, the
    returned value is at least 2: no two distinct nodes are at distance 0
    or 1. *)
Theorem distance_at_least_2 (doc : dom) (a b : node) (cost : Z) :
  a <> b -> distance doc a b = Return cost -> 2 <= cost.
Proof.
  intros Hne Hd. destruct (contains b a) eqn:E.
  - rewrite (distance_below_ancestor doc a b Hne E) in Hd. discriminate.
  - destruct (distance_returns doc a b (or_intror E)) as (c & Hc & Hle).
    rewrite Hc in Hd. injection Hd as <-. now apply Hle.
Qed.

Lemma distance_at_least_2_witness :
  nP1 <> nSpan /\ distance sampleDoc nP1 nSpan = Return 4 /\ 2 <= 4.
Proof.
  refine (conj _ (conj _ (distance_at_least_2 sampleDoc nP1 nSpan 4 _ _)));
    first [discriminate | reflexivity].
Defined.

(** C8.  [numStrides left right] returns the number of non-skippable nodes
    the walk forward from [left] visits before it reaches [right] or runs
    out of siblings, and, exactly when that walk did not land on [right],
    also the number of non-skippable nodes before [right] in its sibling
    list; when the forward walk lands on [right] the backward walk adds
    nothing.  The siblings after a node are what its next-sibling links lead
    to, and the siblings before it what its previous-sibling links lead
    to. *)
Theorem numStrides_two_walks (doc : dom) (left right : jsval) :
  numStrides doc left right =
  Return (nonSkippable doc (forwardWalk doc left right) +
          (if forwardLands doc left right then 0
           else nonSkippable doc (backwardWalk right))) /\
  (forall n, followingSiblings doc n =
             match nextSibling doc n with
             | ref s => s :: followingSiblings doc s
             | _ => []
             end) /\
  (forall n, precedingSiblings n =
             match previousSibling n with
             | ref s => s :: precedingSiblings s
             | _ => []
             end).
Proof.
  split; [apply numStrides_counts|]. split.
  - intros [|i parent]; [reflexivity|].
    rewrite followingSiblings_step. cbn [nextSibling].
    now destruct (S i <? length (childNodes doc parent))%nat.
  - intros [|[|i] parent]; [reflexivity | reflexivity|].
    now rewrite precedingSiblings_step.
Qed.

(** ** The distance matrix *)

(** C5.  [merge clusterA clusterB] on a well-formed matrix and two live
    clusters returns.  The new cluster gets a row whose distance to every
    other live cluster [x] is [Math.min] of what [_cachedDistance] finds for
    [clusterA] and [x] and for [clusterB] and [x], each of them the entry
    stored for the two in one direction or the other; [merge] takes no
    metric, so none is called.  Afterwards neither merged cluster is a row
    key or an inner key, and [numClusters] is one less. *)
Theorem merge_single_linkage (self : DistanceMatrix) (clusterA clusterB : cluster) :
  wellFormed self -> live self clusterA -> live self clusterB ->
  exists self' newRow,
    merge self clusterA clusterB = Return self' /\
    mget (_matrix self') (mergedCluster self clusterA clusterB) = Some newRow /\
    (forall x, live self x -> x <> clusterA -> x <> clusterB ->
       exists dA dB,
         _cachedDistance self clusterA x = Return (Some (Finite dA)) /\
         (In {| Yield.a := clusterA; Yield.b := x; Yield.distance := Finite dA |}
             (clustersAndDistances self) \/
          In {| Yield.a := x; Yield.b := clusterA; Yield.distance := Finite dA |}
             (clustersAndDistances self)) /\
         _cachedDistance self clusterB x = Return (Some (Finite dB)) /\
         (In {| Yield.a := clusterB; Yield.b := x; Yield.distance := Finite dB |}
             (clustersAndDistances self) \/
          In {| Yield.a := x; Yield.b := clusterB; Yield.distance := Finite dB |}
             (clustersAndDistances self)) /\
         mget newRow x = Some (Finite (Z.min dA dB))) /\
    ~ live self' clusterA /\ ~ live self' clusterB /\
    (forall k r, In (k, r) (_matrix self') ->
                 mget r clusterA = None /\ mget r clusterB = None) /\
    numClusters self' = numClusters self - 1.
Proof.
  intros Hwf HA HB.
  destruct (merge_returns self Hwf clusterA clusterB HA HB)
    as (newRow & Hrun & Hkeys & _ & Hnew).
  pose proof (mergedCluster_fresh self Hwf clusterA clusterB) as Hfresh.
  assert (Htrim : forall x, In x (mkeys (trimmedRows self clusterA clusterB)) ->
                            live self x /\ x <> clusterA /\ x <> clusterB).
  { intros x Hx. unfold trimmedRows in Hx. rewrite keys_trim in Hx.
    apply without_in in Hx. destruct Hx as [Hx HxB].
    apply without_in in Hx. destruct Hx as [Hx HxA]. auto. }
  eexists. exists newRow. split; [exact Hrun|]. cbn [_matrix _numClusters].
  split; [|split; [|split; [|split; [|split]]]].
  - apply get_middle. intros H. apply Htrim in H. now apply Hfresh.
  - intros x Hx HxA HxB.
    destruct (cachedDistance_live self Hwf clusterA x HA Hx) as (dA & HcA & HinA);
      [congruence|].
    destruct (cachedDistance_live self Hwf clusterB x HB Hx) as (dB & HcB & HinB);
      [congruence|].
    destruct (Hnew x Hx HxA HxB) as (dA' & dB' & HcA' & HcB' & Hget).
    exists dA, dB. repeat split; auto.
    rewrite Hget. rewrite HcA in HcA'. rewrite HcB in HcB'.
    injection HcA' as <-. injection HcB' as <-. reflexivity.
  - unfold live. cbn [_matrix]. rewrite keys_app. intros H.
    apply in_app_or in H. destruct H as [H|[H|[]]].
    + apply Htrim in H. tauto.
    + cbn in H. apply Hfresh. rewrite H. exact HA.
  - unfold live. cbn [_matrix]. rewrite keys_app. intros H.
    apply in_app_or in H. destruct H as [H|[H|[]]].
    + apply Htrim in H. tauto.
    + cbn in H. apply Hfresh. rewrite H. exact HB.
  - intros k r Hin. apply in_app_or in Hin. destruct Hin as [Hin|[[= <- <-]|[]]].
    + unfold trimmedRows in Hin. apply in_map_iff in Hin.
      destruct Hin as ([k0 r0] & [= <- <-] & _). cbn [snd]. split.
      * destruct (cluster_eq_dec clusterB clusterA) as [->|Hne].
        -- apply get_delete_same.
        -- rewrite get_delete_other by exact Hne. apply get_delete_same.
      * apply get_delete_same.
    + split; apply get_none; rewrite Hkeys; rewrite !without_in; tauto.
  - reflexivity.
Qed.

Lemma merge_single_linkage_witness :
  exists self' newRow,
    merge sampleMatrix (Singleton 1 nP2) (Singleton 0 nP1) = Return self' /\
    mget (_matrix self')
      (mergedCluster sampleMatrix (Singleton 1 nP2) (Singleton 0 nP1)) =
    Some newRow /\
    mget newRow (Singleton 2 nSpan) = Some (Finite 3) /\
    numClusters self' = 3.
Proof.
  destruct (merge_single_linkage sampleMatrix (Singleton 1 nP2) (Singleton 0 nP1)
              sampleMatrix_wellFormed)
    as (self' & newRow & Hrun & Hrow & Hnew & _ & _ & _ & Hnum).
  - cbn. tauto.
  - cbn. tauto.
  - exists self', newRow. split; [exact Hrun|]. split; [exact Hrow|]. split.
    + destruct (Hnew (Singleton 2 nSpan)) as (dA & dB & HcA & _ & HcB & _ & Hget).
      * cbn. tauto.
      * discriminate.
      * discriminate.
      * vm_compute in HcA. vm_compute in HcB.
        injection HcA as <-. injection HcB as <-. exact Hget.
    + exact Hnum.
Defined.

(** C6.  Every matrix that the constructor returns or that merges of two
    distinct live clusters lead to from one holds exactly
    [numClusters * (numClusters - 1) / 2] stored entries, no two of them
    with the same parties; of two live clusters the one inserted later has
    the other as an inner key, not the other way round; and a merge of two
    distinct live clusters returns such a matrix again. *)
Theorem matrix_entries_triangular (self : DistanceMatrix) :
  reachable self ->
  numEntries self = numClusters self * (numClusters self - 1) / 2 /\
  NoDup (map parties (clustersAndDistances self)) /\
  (forall before x rx middle y ry after,
     _matrix self = before ++ (x, rx) :: middle ++ (y, ry) :: after ->
     (exists d, In {| Yield.a := y; Yield.b := x; Yield.distance := d |}
                   (clustersAndDistances self)) /\
     (forall d, ~ In {| Yield.a := x; Yield.b := y; Yield.distance := d |}
                     (clustersAndDistances self))) /\
  (forall clusterA clusterB,
     live self clusterA -> live self clusterB -> clusterA <> clusterB ->
     exists self', merge self clusterA clusterB = Return self' /\ reachable self').
Proof.
  intros Hreach. pose proof (reachable_wellFormed self Hreach) as Hwf.
  split; [|split; [|split]].
  - apply Z.div_unique_exact; [lia|]. symmetry. now apply wellFormed_entries.
  - destruct Hwf as (Htri & Hnd & _ & _).
    exact (triangular_parties_NoDup _ [] Htri Hnd).
  - intros before x rx middle y ry after E.
    destruct Hwf as (Htri & Hnd & _ & _).
    destruct (triangular_two_rows _ _ _ _ _ _ _ _ Htri Hnd E)
      as (_ & Hky & _ & Hgx & _ & Hnone & _).
    split.
    + destruct (get_some cluster_eq_dec ry x) as (v & _ & Hin).
      { rewrite Hky. apply in_or_app. right. now left. }
      exists v. apply in_clustersAndDistances. exists ry. cbn. split; [|exact Hin].
      rewrite E. apply in_or_app. right. right. apply in_or_app. right. now left.
    + intros d Hin. apply in_clustersAndDistances in Hin.
      destruct Hin as (r & Hr & Hd). cbn in Hr, Hd.
      apply (get_of_in cluster_eq_dec _ _ _ Hnd) in Hr.
      rewrite Hgx in Hr. injection Hr as <-.
      destruct (get_some cluster_eq_dec rx y) as (v & Hv & _).
      { apply in_map_iff. now exists (y, d). }
      congruence.
  - intros A B HA HB Hne.
    destruct (merge_wellFormed self Hwf A B HA HB Hne) as (self' & Hm & _).
    exists self'. split; [exact Hm|].
    exact (reachable_merge self A B self' Hreach HA HB Hne Hm).
Qed.

Lemma matrix_entries_triangular_witness :
  numEntries sampleMatrix = 4 * (4 - 1) / 2 /\
  NoDup (map parties (clustersAndDistances sampleMatrix)).
Proof.
  destruct (matrix_entries_triangular sampleMatrix
              (reachable_new _ _ _ sampleMatrix_new)) as (Hcount & Hnd & _).
  split; [exact Hcount | exact Hnd].
Defined.

(** C7.  With two clusters or more, [closest] returns a stored entry whose
    distance is least among all stored entries and, of the entries of that
    distance, the first that the scan meets: every entry yielded before it
    has a greater distance.  The scan goes through the rows in their order
    in the table and through each row in its own order. *)
Theorem closest_least_first (self : DistanceMatrix) :
  wellFormed self -> 2 <= numClusters self ->
  exists e pre post d,
    closest self = Return e /\
    clustersAndDistances self = pre ++ e :: post /\
    Yield.distance e = Finite d /\
    (forall x, In x (clustersAndDistances self) ->
       exists dx, Yield.distance x = Finite dx /\ d <= dx) /\
    (forall x, In x pre -> exists dx, Yield.distance x = Finite dx /\ d < dx).
Proof.
  intros Hwf Hn.
  destruct (closest_first self Hwf Hn) as (e & pre & post & Hc & He & Hpre & Hpost).
  assert (Hfin : forall x, In x (clustersAndDistances self) ->
                           exists dx, Yield.distance x = Finite dx).
  { intros x Hx. now apply (entry_live self x Hwf). }
  destruct (Hfin e) as (d & Hd); [rewrite He; apply in_or_app; right; now left|].
  exists e, pre, post, d. repeat split; auto.
  - intros x Hx. destruct (Hfin x Hx) as (dx & Hdx). exists dx. split; [exact Hdx|].
    rewrite He in Hx. apply in_app_or in Hx. destruct Hx as [Hx|[<-|Hx]].
    + specialize (Hpre x Hx). rewrite Hd, Hdx, lt_Finite in Hpre. lia.
    + rewrite Hd in Hdx. injection Hdx as <-. lia.
    + specialize (Hpost x Hx). rewrite Hd, Hdx, lt_Finite in Hpost. lia.
  - intros x Hx. destruct (Hfin x) as (dx & Hdx).
    { rewrite He. apply in_or_app. now left. }
    exists dx. split; [exact Hdx|].
    specialize (Hpre x Hx). rewrite Hd, Hdx, lt_Finite in Hpre. lia.
Qed.

Lemma closest_least_first_witness :
  exists e pre post d,
    closest paragraphsMatrix = Return e /\
    clustersAndDistances paragraphsMatrix = pre ++ e :: post /\
    Yield.distance e = Finite d /\
    (forall x, In x (clustersAndDistances paragraphsMatrix) ->
       exists dx, Yield.distance x = Finite dx /\ d <= dx) /\
    (forall x, In x pre -> exists dx, Yield.distance x = Finite dx /\ d < dx).
Proof.
  apply (closest_least_first paragraphsMatrix paragraphsMatrix_wellFormed).
  cbn. lia.
Defined.

(** The tie of [paragraphsMatrix] goes to the entry that was yielded first. *)
Example closest_paragraphs :
  clustersAndDistances paragraphsMatrix =
    [ {| Yield.a := Singleton 1 [1%nat]; Yield.b := Singleton 0 [0%nat];
         Yield.distance := Finite 2 |};
      {| Yield.a := Singleton 2 [2%nat]; Yield.b := Singleton 0 [0%nat];
         Yield.distance := Finite 3 |};
      {| Yield.a := Singleton 2 [2%nat]; Yield.b := Singleton 1 [1%nat];
         Yield.distance := Finite 2 |} ] /\
  closest paragraphsMatrix =
    Return {| Yield.a := Singleton 1 [1%nat]; Yield.b := Singleton 0 [0%nat];
              Yield.distance := Finite 2 |}.
Proof. split; reflexivity. Qed.

(** C9.  On a well-formed matrix [closest] throws if and only if
    [numClusters] is less than 2; whenever it is less than 2, what it throws
    is the error that says so, and nothing is returned; and [clusters],
    whose loop asks for the closest pair only while [numClusters() > 1],
    never ends with that error. *)
Theorem closest_throws_iff_too_few (self : DistanceMatrix) :
  wellFormed self ->
  ((exists e, closest self = Throw e) <-> numClusters self < 2) /\
  (numClusters self < 2 -> closest self = Throw tooFewClusters) /\
  (forall doc elements tooFar,
     clusters doc elements tooFar <> Throw tooFewClusters).
Proof.
  intros Hwf.
  assert (Hfew : numClusters self < 2 -> closest self = Throw tooFewClusters).
  { intros Hn. unfold closest. fold (numClusters self).
    destruct (Z.ltb_spec (numClusters self) 2); [reflexivity | lia]. }
  split; [split|split].
  - intros (e & He). destruct (Z.lt_ge_cases (numClusters self) 2) as [|Hn]; [assumption|].
    destruct (closest_first self Hwf Hn) as (e' & _ & _ & Hc & _). congruence.
  - intros Hn. exists tooFewClusters. now apply Hfew.
  - exact Hfew.
  - intros doc elements tooFar H.
    apply clusters_throws_TypeError in H. discriminate.
Qed.

Lemma closest_throws_iff_too_few_witness :
  closest {| _matrix := [(Singleton 0 nP1, [])]; _numClusters := 1; allocated := 1 |}
  = Throw tooFewClusters.
Proof.
  refine (proj1 (proj2 (closest_throws_iff_too_few
            {| _matrix := [(Singleton 0 nP1, [])]; _numClusters := 1; allocated := 1 |}
            _)) _).
  - exact (proj1 (newDistanceMatrix_wellFormed sampleDoc [nP1] _ eq_refl)).
  - reflexivity.
Defined.

(** ** The driver *)

(** C4, as the spec has it, fails: of no nodes at all [clusters] makes no
    cluster at all. *)
Lemma clusters_infinity_of_nothing :
  clusters sampleDoc [] Infinity = Return [] /\
  ~ (exists cluster, clusters sampleDoc [] Infinity = Return [cluster]).
Proof. split; [reflexivity | intros (c & H); discriminate]. Qed.

(** C4, amended.  For every sequence of nodes that is not empty and in which
    no node comes after one of its proper ancestors,
    [clusters nodes Infinity] returns exactly one cluster, and that cluster
    holds the input nodes, each as often as the input has it. *)
Theorem clusters_infinity_one_cluster (doc : dom) (elements : list node) :
  elements <> [] -> ancestorsLast elements ->
  exists cluster,
    clusters doc elements Infinity = Return [cluster] /\
    Permutation cluster elements.
Proof.
  intros Hne Hsafe.
  destruct (newDistanceMatrix_returns doc elements Hsafe) as (matrix & Hnew).
  destruct (clusters_returns doc elements Infinity matrix Hnew)
    as (final & Hrun & _ & Hperm & Hone).
  specialize (Hone eq_refl Hne).
  destruct (matrixClusters final) as [|c [|c' rest]]; try discriminate.
  exists c. split; [exact Hrun|]. cbn [concat] in Hperm.
  now rewrite app_nil_r in Hperm.
Qed.

Lemma clusters_infinity_one_cluster_witness :
  exists cluster,
    clusters sampleDoc sampleElements Infinity = Return [cluster] /\
    Permutation cluster sampleElements.
Proof.
  apply (clusters_infinity_one_cluster sampleDoc sampleElements).
  - discriminate.
  - unfold ancestorsLast, sampleElements.
    repeat first [ apply FOP_nil | apply FOP_cons | apply Forall_nil
                 | apply Forall_cons | (right; reflexivity) ].
Defined.

(** * Further properties *)

(** ** More on [distance] and [numStrides] *)

Section MoreDistanceFacts.

Variable doc : dom.

(** The stack the climb from [x] to an ancestor leaves: the ancestor on
    top, one node for every level in between. *)
Lemma climb_shape (anc : node) :
  forall (x : node) (stack : list node),
    contains anc x = true ->
    exists tail,
      climb anc x (x :: stack) = anc :: tail /\
      length tail = (length x - length anc + length stack)%nat.
Proof.
  induction x as [|i x IH]; intros stack Hc.
  - cbn in Hc. destruct (node_eq_dec anc []) as [->|]; [|discriminate].
    exists stack. split; [reflexivity | cbn; lia].
  - cbn [climb]. destruct (node_eq_dec (i :: x) anc) as [<-|Hne].
    + exists stack. split; [reflexivity | lia].
    + assert (Hp : contains anc x = true)
        by (apply contains_parent with i; [exact Hc | congruence]).
      destruct (IH ((i :: x) :: stack) Hp) as (tail & E & Hlen).
      exists tail. split; [exact E|].
      pose proof (contains_length _ _ Hp). cbn [length] in *. lia.
Qed.

(** Once the left stack is empty and strides do not count, every node left
    on the right stack costs [DIFFERENT_DEPTH_COST]. *)
Lemma descend_drain :
  forall (fuel : nat) (rights : list node) (cost : Z),
    (length rights <= fuel)%nat ->
    descend fuel doc false [] rights cost =
    Return (cost + DIFFERENT_DEPTH_COST * Z.of_nat (length rights)).
Proof.
  induction fuel as [|fuel IH]; intros rights cost Hfuel.
  - destruct rights; [cbn; f_equal; lia | cbn in Hfuel; lia].
  - destruct rights as [|r rights]; [cbn; f_equal; lia|].
    cbn [descend pop bind levelCost]. rewrite IH by (cbn in Hfuel; lia).
    f_equal. unfold STRIDE_COST, DIFFERENT_DEPTH_COST. cbn [length]. lia.
Qed.

Lemma distance_nonneg (a b : node) (cost : Z) :
  distance doc a b = Return cost -> 0 <= cost.
Proof.
  intros Hd. destruct (node_eq_dec a b) as [->|Hne].
  - rewrite distance_same in Hd. injection Hd as <-. lia.
  - destruct (contains b a) eqn:E.
    + rewrite (distance_below_ancestor doc a b Hne E) in Hd. discriminate.
    + destruct (distance_returns doc a b (or_intror E)) as (c & Hc & Hle).
      rewrite Hc in Hd. injection Hd as <-. specialize (Hle Hne). lia.
Qed.

(** Walking forward from a child to a later child of the same parent: the
    walk lands on it, and visits the children between the two. *)
Lemma forward_between (parent : node) (j : nat) :
  (j < length (childNodes doc parent))%nat ->
  forall (gap i : nat),
    (i + S gap = j)%nat ->
    landsOn (ref (j :: parent)) (followingSiblings doc (i :: parent)) = true /\
    visitedBefore (ref (j :: parent)) (followingSiblings doc (i :: parent)) =
    siblingsBetween parent i j.
Proof.
  intros Hj. unfold siblingsBetween.
  induction gap as [|gap IH]; intros i Hi;
    rewrite followingSiblings_step;
    (destruct (Nat.ltb_spec (S i) (length (childNodes doc parent))); [|lia]);
    cbn [landsOn existsb visitedBefore].
  - replace (S i) with j by lia. rewrite strictEq_refl.
    replace (j - j)%nat with O by lia. auto.
  - destruct (strictEq (ref (S i :: parent)) (ref (j :: parent))) eqn:E.
    { apply strictEq_true in E. injection E as E. lia. }
    cbn [orb]. destruct (IH (S i)) as [Hl Hv]; [lia|].
    split; [exact Hl|]. rewrite Hv.
    replace (j - S i)%nat with (S (j - S (S i)))%nat by lia. reflexivity.
Qed.

Lemma numStrides_between (parent : node) (i j : nat) :
  (i < j)%nat -> (j < length (childNodes doc parent))%nat ->
  numStrides doc (ref (i :: parent)) (ref (j :: parent)) =
  Return (nonSkippable doc (siblingsBetween parent i j)).
Proof.
  intros Hij Hj. rewrite numStrides_counts. unfold forwardWalk, forwardLands.
  assert (E : strictEq (ref (i :: parent)) (ref (j :: parent)) = false).
  { destruct (strictEq _ _) eqn:E; [|reflexivity].
    apply strictEq_true in E. injection E as E. lia. }
  rewrite E. cbn [orb].
  destruct (forward_between parent j Hj (j - S i) i) as [-> ->]; [lia|].
  f_equal. lia.
Qed.

Lemma visitedBefore_all (right : jsval) (walk : list node) :
  landsOn right walk = false -> visitedBefore right walk = walk.
Proof.
  induction walk as [|s walk IH]; [reflexivity|].
  cbn [landsOn existsb visitedBefore].
  destruct (strictEq (ref s) right); [discriminate|].
  cbn [orb]. intros H. f_equal. now apply IH.
Qed.

Lemma landsOn_false (r : node) (walk : list node) :
  ~ In r walk -> landsOn (ref r) walk = false.
Proof.
  induction walk as [|s walk IH]; intros Hr; [reflexivity|].
  cbn [landsOn existsb]. destruct (strictEq (ref s) (ref r)) eqn:E.
  - apply strictEq_true in E. injection E as ->. exfalso. apply Hr. now left.
  - cbn [orb]. apply IH. intros H. apply Hr. now right.
Qed.

End MoreDistanceFacts.

(** X1.  Between a node and one of its proper descendants, taken in that
    order, [distance] charges the same-tag cost once, for the ancestor
    itself, and the different-depth cost once for every level between the
    two; strides do not count. *)
Theorem distance_to_descendant (doc : dom) (a b : node) :
  a <> b -> contains a b = true ->
  distance doc a b =
  Return (SAME_TAG_COST +
          DIFFERENT_DEPTH_COST * Z.of_nat (length b - length a)).
Proof.
  intros Hne Hc. unfold distance. case_node_eq; [congruence|].
  rewrite ascendA_climbs, (commonAncestor_self a b Hc), climb_self.
  cbn [bind]. rewrite (ascendB_climbs a b [b] Hc Hne). cbn [bind].
  destruct (climb_shape a b [] Hc) as (tail & -> & Hlen).
  unfold compareDocumentPosition. case_node_eq; [congruence|]. rewrite Hc.
  change (Z.lor DOCUMENT_POSITION_CONTAINED_BY DOCUMENT_POSITION_FOLLOWING)
    with 20.
  change (hasBit 20 DOCUMENT_POSITION_FOLLOWING) with true.
  change (hasBit 20 DOCUMENT_POSITION_CONTAINED_BY) with true.
  cbn [negb length Nat.max descend pop levelCost bind].
  destruct (tag_eq_dec (tagName doc a) (tagName doc a)); [|congruence].
  rewrite descend_drain by lia. f_equal.
  unfold STRIDE_COST. cbn [length] in Hlen. lia.
Qed.

Lemma distance_to_descendant_witness :
  distance sampleDoc nBody nP1 = Return 5.
Proof.
  apply (distance_to_descendant sampleDoc nBody nP1); [discriminate | reflexivity].
Defined.

(** X2.  Between two distinct children of one parent [distance] is the
    same-tag cost for the parent, the tag cost of the two nodes, and one
    stride for every non-skippable sibling strictly between them, whichever
    of the two comes first. *)
Theorem distance_between_siblings (doc : dom) (parent : node) (i j : nat) :
  (i < j)%nat ->
  subtree doc (j :: parent) <> None ->
  distance doc (i :: parent) (j :: parent) =
    Return (SAME_TAG_COST + levelCost doc (ref (i :: parent)) (ref (j :: parent)) +
            nonSkippable doc (siblingsBetween parent i j) * STRIDE_COST) /\
  distance doc (j :: parent) (i :: parent) = distance doc (i :: parent) (j :: parent).
Proof.
  intros Hij Hj. apply subtree_index in Hj.
  assert (Hne : i <> j) by lia.
  assert (H1 : contains (i :: parent) (j :: parent) = false)
    by (apply siblings_incomparable; exact Hne).
  assert (H2 : contains (j :: parent) (i :: parent) = false)
    by (apply siblings_incomparable; congruence).
  split; [|now apply distance_sym_incomparable].
  rewrite distance_incomparable by assumption. cbv zeta.
  assert (Hanc : commonAncestor (i :: parent) (j :: parent) = parent).
  { cbn [commonAncestor]. rewrite H1.
    apply commonAncestor_self, contains_child, contains_refl. }
  rewrite Hanc. cbn [rev]. rewrite pathBefore_last.
  destruct (Nat.ltb_spec i j) as [_|]; [|lia]. rewrite !climb_child.
  cbn [length Nat.max descend pop]. rewrite numStrides_same. cbn [bind].
  rewrite numStrides_between by assumption. cbn [bind]. f_equal.
  assert (Hparent : levelCost doc (ref parent) (ref parent) = SAME_TAG_COST).
  { unfold levelCost. destruct (tag_eq_dec _ _); congruence. }
  rewrite Hparent. unfold STRIDE_COST. lia.
Qed.

Lemma distance_between_siblings_witness :
  distance sampleDoc (0%nat :: nDiv) (3%nat :: nDiv) = Return 4 /\
  distance sampleDoc (3%nat :: nDiv) (0%nat :: nDiv) =
  distance sampleDoc (0%nat :: nDiv) (3%nat :: nDiv).
Proof.
  apply (distance_between_siblings sampleDoc nDiv 0 3); [lia | discriminate].
Defined.

(** X3.  When [right] is a node that is not among the siblings after
    [left], the forward walk runs to the end of [left]'s siblings and the
    backward walk is made as well: [numStrides] counts every non-skippable
    sibling after [left] and every non-skippable sibling before [right],
    whether or not they lie between the two. *)
Theorem numStrides_unrelated (doc : dom) (l r : node) :
  l <> r -> ~ In r (followingSiblings doc l) ->
  numStrides doc (ref l) (ref r) =
  Return (nonSkippable doc (followingSiblings doc l) +
          nonSkippable doc (precedingSiblings r)).
Proof.
  intros Hne Hr. rewrite numStrides_counts. unfold forwardWalk, forwardLands.
  assert (E : strictEq (ref l) (ref r) = false).
  { destruct (strictEq _ _) eqn:E; [|reflexivity].
    apply strictEq_true in E. congruence. }
  rewrite E, (landsOn_false r _ Hr). cbn [orb backwardWalk].
  now rewrite visitedBefore_all by (now apply landsOn_false).
Qed.

Lemma numStrides_unrelated_witness :
  numStrides sampleDoc (ref nP1) (ref nLi) = Return 2.
Proof.
  apply (numStrides_unrelated sampleDoc nP1 nLi); [discriminate|].
  cbn. intros [H|[H|[H|[]]]]; discriminate.
Defined.

(** X4.  [distance] never returns a negative number, and returns 0 for a
    node and itself only. *)
Theorem distance_zero_iff_same (doc : dom) (a b : node) :
  (distance doc a b = Return 0 <-> a = b) /\
  (forall cost, distance doc a b = Return cost -> 0 <= cost).
Proof.
  split; [split|].
  - intros Hd. destruct (node_eq_dec a b) as [|Hne]; [assumption|].
    destruct (contains b a) eqn:E.
    + rewrite (distance_below_ancestor doc a b Hne E) in Hd. discriminate.
    + destruct (distance_returns doc a b (or_intror E)) as (c & Hc & Hle).
      rewrite Hc in Hd. injection Hd as ->. specialize (Hle Hne). lia.
  - intros ->. apply distance_same.
  - apply distance_nonneg.
Qed.

Lemma distance_zero_iff_same_witness :
  nP1 = nP1 /\ 0 <= 4.
Proof.
  split.
  - apply (proj1 (proj1 (distance_zero_iff_same sampleDoc nP1 nP1))). reflexivity.
  - apply (proj2 (distance_zero_iff_same sampleDoc nP1 nSpan) 4). reflexivity.
Defined.

(** ** More on the constructor *)

Section MoreConstructorFacts.

Variable doc : dom.

Lemma set_in {V : Type} (m : @Map.t cluster V) (k k' : cluster) (v v' : V) :
  In (k, v) (mset m k' v') -> In (k, v) m \/ (k, v) = (k', v').
Proof.
  induction m as [|[k0 v0] m IH]; cbn [Map.set].
  - intros [H|[]]. right. now symmetry.
  - destruct (cluster_eq_dec k' k0) as [->|_].
    + intros [H|H]; [right; now symmetry | left; now right].
    + intros [H|H]; [left; now left|].
      destruct (IH H) as [H'|H']; [left; now right | now right].
Qed.

Lemma initRow_contents (outerCluster : cluster) :
  forall (innerClusters : list cluster) (innerMap r : row),
    initRow doc outerCluster innerClusters innerMap = Return r ->
    forall k v, In (k, v) r ->
      In (k, v) innerMap \/
      exists d, v = Finite d /\ distance0 doc outerCluster k = Return d.
Proof.
  induction innerClusters as [|k0 rest IH]; intros innerMap r Hrun k v Hin.
  - cbn in Hrun. injection Hrun as <-. now left.
  - cbn [initRow] in Hrun. apply bind_Return in Hrun.
    destruct Hrun as (d & Hd & Hrun).
    destruct (IH _ _ Hrun k v Hin) as [H|H]; [|now right].
    apply set_in in H. destruct H as [H|[= -> ->]]; [now left|].
    right. now exists d.
Qed.

Lemma initMatrix_contents :
  forall (cs : list cluster) (matrix final : @Map.t cluster row),
    initMatrix doc cs matrix = Return final ->
    forall k r, In (k, r) final ->
      In (k, r) matrix \/
      forall k' v, In (k', v) r ->
        exists d, v = Finite d /\ distance0 doc k k' = Return d.
Proof.
  induction cs as [|outer rest IH]; intros matrix final Hrun k r Hin.
  - cbn in Hrun. injection Hrun as <-. now left.
  - cbn [initMatrix] in Hrun. apply bind_Return in Hrun.
    destruct Hrun as (innerMap & Hrow & Hrun).
    destruct (IH _ _ Hrun k r Hin) as [H|H]; [|now right].
    apply set_in in H. destruct H as [H|[= -> ->]]; [now left|].
    right. intros k' v Hv.
    destruct (initRow_contents _ _ _ _ Hrow k' v Hv) as [[]|H]. exact H.
Qed.

Lemma singletons_nth (elements : list node) :
  forall (from n : nat) (c : cluster),
    nth_error (singletons from elements) n = Some c <->
    exists el, nth_error elements n = Some el /\ c = Singleton (from + n) el.
Proof.
  induction elements as [|el elements IH]; intros from n c.
  - cbn. destruct n; split; try discriminate; intros (x & H & _); discriminate.
  - rewrite singletons_cons. destruct n as [|n]; cbn [nth_error].
    + rewrite Nat.add_0_r. split.
      * intros [= <-]. now exists el.
      * intros (x & [= <-] & ->). reflexivity.
    + rewrite IH. replace (S from + n)%nat with (from + S n)%nat by lia.
      reflexivity.
Qed.

Lemma singletons_map_flatten (elements : list node) :
  forall from,
    map flatten (singletons from elements) = map (fun el => [el]) elements.
Proof.
  induction elements as [|el elements IH]; intros from; [reflexivity|].
  rewrite singletons_cons. cbn [map flatten]. now rewrite IH.
Qed.

Lemma distance_outcome (a b : node) :
  (exists cost, distance doc a b = Return cost /\
                (a = b \/ contains b a = false)) \/
  distance doc a b = Throw TypeError.
Proof.
  destruct (node_eq_dec a b) as [E|Hne].
  - left. destruct (distance_returns doc a b (or_introl E)) as (c & Hc & _). eauto.
  - destruct (contains b a) eqn:E.
    + right. now apply distance_below_ancestor.
    + left. destruct (distance_returns doc a b (or_intror E)) as (c & Hc & _). eauto.
Qed.

Lemma distance_Return_safe (a b : node) (cost : Z) :
  distance doc a b = Return cost -> a = b \/ contains b a = false.
Proof.
  intros H. destruct (distance_outcome a b) as [(c & _ & Hs)|Ht];
    [exact Hs | congruence].
Qed.

Lemma initRow_outcome (outerCluster : cluster) :
  forall (innerClusters : list cluster) (innerMap : row),
    (exists r, initRow doc outerCluster innerClusters innerMap = Return r) \/
    initRow doc outerCluster innerClusters innerMap = Throw TypeError.
Proof.
  induction innerClusters as [|k rest IH]; intros innerMap; [left; now eexists|].
  cbn [initRow].
  assert (H : (exists d, distance0 doc outerCluster k = Return d) \/
              distance0 doc outerCluster k = Throw TypeError).
  { unfold distance0. destruct outerCluster, k; try (now right).
    destruct (distance_outcome el el0) as [(c & Hc & _)|Ht]; eauto. }
  destruct H as [(d & ->) | ->]; [apply IH | now right].
Qed.

Lemma initMatrix_outcome :
  forall (cs : list cluster) (matrix : @Map.t cluster row),
    (exists final, initMatrix doc cs matrix = Return final) \/
    initMatrix doc cs matrix = Throw TypeError.
Proof.
  induction cs as [|outer rest IH]; intros matrix; [left; now eexists|].
  cbn [initMatrix].
  destruct (initRow_outcome outer (mkeys matrix) []) as [(r & ->) | ->];
    [apply IH | now right].
Qed.

Lemma newDistanceMatrix_outcome (elements : list node) :
  (exists matrix, newDistanceMatrix doc elements = Return matrix) \/
  newDistanceMatrix doc elements = Throw TypeError.
Proof.
  unfold newDistanceMatrix.
  destruct (initMatrix_outcome (singletons 0 elements) []) as [(r & ->) | ->];
    [left; cbn; now eexists | now right].
Qed.

(** What the entries of a new matrix are. *)
Lemma newDistanceMatrix_entry (elements : list node) (m : DistanceMatrix)
  (e : Yield.t) :
  newDistanceMatrix doc elements = Return m ->
  In e (clustersAndDistances m) ->
  exists i j y x d,
    (i < j)%nat /\
    nth_error elements i = Some y /\ nth_error elements j = Some x /\
    Yield.a e = Singleton j x /\ Yield.b e = Singleton i y /\
    distance doc x y = Return d /\ Yield.distance e = Finite d.
Proof.
  intros Hnew He.
  destruct (newDistanceMatrix_wellFormed doc _ _ Hnew) as [Hwf Hkeys].
  destruct Hwf as (Htri & Hnd & _ & _).
  apply in_clustersAndDistances in He. destruct He as (r & Hr & Hd).
  assert (Hdist : exists d, Yield.distance e = Finite d /\
                            distance0 doc (Yield.a e) (Yield.b e) = Return d).
  { unfold newDistanceMatrix in Hnew. apply bind_Return in Hnew.
    destruct Hnew as (matrix & Hinit & [= <-]). cbn [_matrix] in Hr.
    destruct (initMatrix_contents _ _ _ Hinit _ _ Hr) as [[]|H].
    exact (H _ _ Hd). }
  destruct Hdist as (d & Hfin & Hd0).
  destruct (in_split _ _ Hr) as (l1 & l2 & E).
  rewrite E in Htri. apply triangular_app in Htri. destruct Htri as [_ Htri].
  cbn [app triangular] in Htri. destruct Htri as (Hkr & _ & _).
  rewrite E, keys_app in Hkeys. cbn [Map.keys map fst] in Hkeys.
  assert (Hb : In (Yield.b e) (mkeys l1)).
  { rewrite <- Hkr. apply in_map_iff. now exists (Yield.b e, Yield.distance e). }
  apply In_nth_error in Hb. destruct Hb as (i & Hi).
  assert (Hilt : (i < length (mkeys l1))%nat)
    by (apply nth_error_Some; congruence).
  assert (Hb' : nth_error (singletons 0 elements) i = Some (Yield.b e)).
  { rewrite <- Hkeys. unfold Map.keys in *. now rewrite nth_error_app1. }
  assert (Ha' : nth_error (singletons 0 elements) (length (mkeys l1)) =
                Some (Yield.a e)).
  { rewrite <- Hkeys. unfold Map.keys.
    rewrite nth_error_app2 by lia. now rewrite Nat.sub_diag. }
  apply singletons_nth in Hb'. destruct Hb' as (y & Hy & Eb).
  apply singletons_nth in Ha'. destruct Ha' as (x & Hx & Ea).
  cbn [Nat.add] in Ea, Eb.
  exists i, (length (mkeys l1)), y, x, d. repeat split; auto.
  rewrite Ea, Eb in Hd0. exact Hd0.
Qed.

Lemma ForallOrdPairs_nth {A : Type} (R : A -> A -> Prop) (l : list A) :
  (forall i j x y, (i < j)%nat -> nth_error l i = Some x ->
                   nth_error l j = Some y -> R x y) ->
  ForallOrdPairs R l.
Proof.
  induction l as [|a l IH]; intros H; constructor.
  - apply Forall_forall. intros y Hy. apply In_nth_error in Hy.
    destruct Hy as (n & Hn). apply (H 0%nat (S n)); [lia | reflexivity | exact Hn].
  - apply IH. intros i j x y Hij Hx Hy. apply (H (S i) (S j)); [lia | exact Hx | exact Hy].
Qed.

End MoreConstructorFacts.

(** X5.  A matrix that [new DistanceMatrix(elements)] returns has one
    cluster for each element, in order and on its own, and its stored
    entries are exactly these: for every element [x] and every element [y]
    earlier in the sequence, [distance x y], the later element first,
    stored in the row of [x]'s cluster under [y]'s cluster. *)
Theorem newDistanceMatrix_contents (doc : dom) (elements : list node)
  (m : DistanceMatrix) :
  newDistanceMatrix doc elements = Return m ->
  numClusters m = Z.of_nat (length elements) /\
  matrixClusters m = map (fun el => [el]) elements /\
  (forall e, In e (clustersAndDistances m) ->
     exists i j y x d,
       (i < j)%nat /\
       nth_error elements i = Some y /\ nth_error elements j = Some x /\
       Yield.a e = Singleton j x /\ Yield.b e = Singleton i y /\
       distance doc x y = Return d /\ Yield.distance e = Finite d) /\
  (forall i j y x,
     (i < j)%nat ->
     nth_error elements i = Some y -> nth_error elements j = Some x ->
     exists d,
       distance doc x y = Return d /\
       In {| Yield.a := Singleton j x; Yield.b := Singleton i y;
             Yield.distance := Finite d |} (clustersAndDistances m)).
Proof.
  intros Hnew.
  destruct (newDistanceMatrix_wellFormed doc _ _ Hnew) as [Hwf Hkeys].
  split; [|split; [|split]].
  - destruct Hwf as (_ & _ & Hnum & _). unfold numClusters. rewrite Hnum.
    f_equal. rewrite <- (length_map fst). fold (mkeys (_matrix m)).
    now rewrite Hkeys, singletons_length.
  - unfold matrixClusters. rewrite Hkeys. apply singletons_map_flatten.
  - intros e He. now apply (newDistanceMatrix_entry doc elements m).
  - intros i j y x Hij Hy Hx.
    assert (Hlx : live m (Singleton j x)).
    { unfold live. rewrite Hkeys. apply (nth_error_In _ j).
      apply singletons_nth. now exists x. }
    assert (Hly : live m (Singleton i y)).
    { unfold live. rewrite Hkeys. apply (nth_error_In _ i).
      apply singletons_nth. now exists y. }
    destruct (cachedDistance_live m Hwf (Singleton j x) (Singleton i y) Hlx Hly)
      as (z & _ & [Hin|Hin]).
    + intros [= E _]. lia.
    + destruct (newDistanceMatrix_entry doc elements m _ Hnew Hin)
        as (i' & j' & y' & x' & d & _ & _ & _ & Ea & Eb & Hd & Hf).
      cbn in Ea, Eb, Hf. injection Ea as <- <-. injection Eb as <- <-.
      injection Hf as ->. exists d. split; [exact Hd | exact Hin].
    + destruct (newDistanceMatrix_entry doc elements m _ Hnew Hin)
        as (i' & j' & y' & x' & d & Hlt & _ & _ & Ea & Eb & _).
      cbn in Ea, Eb. injection Ea as <- _. injection Eb as <- _. lia.
Qed.

Lemma newDistanceMatrix_contents_witness :
  numClusters sampleMatrix = 4 /\
  matrixClusters sampleMatrix = [[nP1]; [nP2]; [nSpan]; [nLi]].
Proof.
  destruct (newDistanceMatrix_contents sampleDoc sampleElements sampleMatrix
              sampleMatrix_new) as (Hn & Hc & _).
  split; [exact Hn | exact Hc].
Defined.

(** X6.  [new DistanceMatrix(elements)] and [clusters(elements, tooFar)],
    whatever [tooFar] is, return exactly when no element comes after one of
    its proper ancestors; for every other sequence both throw a
    [TypeError]. *)
Theorem clusters_returns_iff (doc : dom) (elements : list node)
  (tooFar : number) :
  ((exists m, newDistanceMatrix doc elements = Return m) <->
   ancestorsLast elements) /\
  ((exists cs, clusters doc elements tooFar = Return cs) <->
   ancestorsLast elements) /\
  (~ ancestorsLast elements ->
   newDistanceMatrix doc elements = Throw TypeError /\
   clusters doc elements tooFar = Throw TypeError).
Proof.
  assert (Hsafe : forall m, newDistanceMatrix doc elements = Return m ->
                            ancestorsLast elements).
  { intros m Hnew. apply ForallOrdPairs_nth. intros i j y x Hij Hy Hx.
    destruct (newDistanceMatrix_contents doc elements m Hnew)
      as (_ & _ & _ & Hall).
    destruct (Hall i j y x Hij Hy Hx) as (d & Hd & _).
    now apply (distance_Return_safe doc x y d). }
  split; [|split].
  - split; [intros (m & Hm); now apply (Hsafe m)|].
    apply newDistanceMatrix_returns.
  - split.
    + intros (cs & Hcs).
      destruct (newDistanceMatrix_outcome doc elements) as [(m & Hm)|Ht].
      * now apply (Hsafe m).
      * unfold clusters in Hcs. rewrite Ht in Hcs. discriminate.
    + intros Hs. destruct (newDistanceMatrix_returns doc elements Hs) as (m & Hm).
      destruct (clusters_returns doc elements tooFar m Hm) as (final & Hrun & _).
      eauto.
  - intros Hns.
    destruct (newDistanceMatrix_outcome doc elements) as [(m & Hm)|Ht].
    + exfalso. apply Hns. now apply (Hsafe m).
    + split; [exact Ht|]. unfold clusters. now rewrite Ht.
Qed.

Lemma clusters_returns_iff_witness :
  newDistanceMatrix sampleDoc [nDiv; nP1] = Throw TypeError /\
  clusters sampleDoc [nDiv; nP1] (Finite 3) = Throw TypeError.
Proof.
  apply (proj2 (proj2 (clusters_returns_iff sampleDoc [nDiv; nP1] (Finite 3)))).
  intros H. inversion H as [|? ? Hall _]; subst.
  inversion Hall as [|? ? [Heq|Hc] _]; subst; discriminate.
Defined.

(** ** More on the driver *)

Section MoreDriverFacts.

Variable doc : dom.

Lemma flatten_nonempty (c : cluster) : flatten c <> [].
Proof.
  induction c as [id el|id a IHa b IHb]; cbn [flatten]; [discriminate|].
  intros H. apply app_eq_nil in H. destruct H as [H _]. now apply IHa.
Qed.

Lemma length_concat_nonempty {A : Type} (ls : list (list A)) :
  Forall (fun l => l <> []) ls -> (length ls <= length (concat ls))%nat.
Proof.
  induction 1 as [|l ls Hl _ IH]; [cbn; lia|].
  cbn [concat length]. rewrite length_app.
  destruct l; [congruence | cbn [length]; lia].
Qed.

Lemma distance_distinct (a b : node) (cost : Z) :
  a <> b -> distance doc a b = Return cost -> 2 <= cost.
Proof.
  intros Hne Hd. destruct (distance_outcome doc a b) as [(c & Hc & Hs)|Ht];
    [|congruence].
  destruct (distance_returns doc a b Hs) as (c' & Hc' & Hle).
  rewrite Hc' in Hd. injection Hd as <-. now apply Hle.
Qed.

(** The loop merges nothing when no stored distance is less than the
    limit. *)
Lemma mergeLoop_nothing (tooFar : number) (matrix : DistanceMatrix) :
  wellFormed matrix ->
  (forall e, In e (clustersAndDistances matrix) ->
             lt (Yield.distance e) tooFar = false) ->
  forall fuel, (length (_matrix matrix) <= S fuel)%nat ->
               mergeLoop fuel matrix tooFar = Return matrix.
Proof.
  intros Hwf Hfar fuel Hlen.
  pose proof Hwf as (_ & _ & Hnum & _).
  destruct fuel as [|fuel]; cbn [mergeLoop]; unfold numClusters in *.
  - rewrite Hnum. destruct (Z.ltb_spec 1 (Z.of_nat (length (_matrix matrix))));
      [lia | reflexivity].
  - destruct (Z.ltb_spec 1 (_numClusters matrix)) as [Hn|]; [|reflexivity].
    destruct (closest_first matrix Hwf) as (e & pre & post & -> & He & _);
      [unfold numClusters; lia|].
    cbn [bind]. rewrite Hfar; [reflexivity|].
    rewrite He. apply in_or_app. right. now left.
Qed.

(** Where the loop stops: on one cluster or none, or on a matrix none of
    whose stored distances is less than the limit. *)
Lemma mergeLoop_final (tooFar : number) (start : DistanceMatrix) :
  forall (fuel : nat) (matrix : DistanceMatrix),
    wellFormed matrix -> mergedFrom start matrix ->
    (length (_matrix matrix) <= S fuel)%nat ->
    exists final,
      mergeLoop fuel matrix tooFar = Return final /\
      wellFormed final /\ mergedFrom start final /\
      (numClusters final <= 1 \/
       forall e, In e (clustersAndDistances final) ->
                 lt (Yield.distance e) tooFar = false).
Proof.
  induction fuel as [|fuel IH]; intros matrix Hwf Hfrom Hlen;
    pose proof Hwf as (_ & _ & Hnum & _).
  - exists matrix. cbn [mergeLoop]. unfold numClusters. rewrite Hnum.
    destruct (Z.ltb_spec 1 (Z.of_nat (length (_matrix matrix)))); [lia|].
    split; [reflexivity|]. split; [exact Hwf|]. split; [exact Hfrom|]. left. lia.
  - cbn [mergeLoop].
    destruct (Z.ltb_spec 1 (numClusters matrix)) as [Hn|Hn].
    + destruct (closest_first matrix Hwf) as (e & pre & post & Hc & He & Hpre & Hpost);
        [lia|].
      rewrite Hc. cbn [bind].
      assert (Hin : In e (clustersAndDistances matrix))
        by (rewrite He; apply in_or_app; right; now left).
      destruct (entry_live matrix e Hwf Hin) as (Ha & Hb & Hab & (z & Hz)).
      destruct (lt (Yield.distance e) tooFar) eqn:Elt.
      * destruct (merge_wellFormed matrix Hwf _ _ Ha Hb Hab)
          as (matrix' & Hm & Hwf' & _ & Hlen').
        rewrite Hm. cbn [bind]. apply IH; [exact Hwf' | | lia].
        exact (mergedFrom_merge start matrix _ _ matrix' Hfrom Ha Hb Hab Hm).
      * exists matrix. split; [reflexivity|]. split; [exact Hwf|].
        split; [exact Hfrom|]. right. intros x Hx.
        destruct (entry_live matrix x Hwf Hx) as (_ & _ & _ & (zx & Hzx)).
        rewrite He in Hx. rewrite Hz in Elt. rewrite Hzx.
        destruct tooFar as [t| |]; try reflexivity; [|discriminate].
        rewrite lt_Finite in *. apply in_app_or in Hx.
        destruct Hx as [Hx|[<-|Hx]].
        -- specialize (Hpre x Hx). rewrite Hz, Hzx, lt_Finite in Hpre. lia.
        -- rewrite Hz in Hzx. injection Hzx as <-. exact Elt.
        -- specialize (Hpost x Hx). rewrite Hz, Hzx, lt_Finite in Hpost. lia.
    + exists matrix. split; [reflexivity|]. split; [exact Hwf|].
      split; [exact Hfrom|]. left. lia.
Qed.

End MoreDriverFacts.

(** X7.  Whatever the limit, the clusters that [clusters] returns are a
    partition of the input: none is empty, and together they hold the input
    nodes, each as often as the input has it; so there are at most as many
    clusters as nodes, and at least one when there is a node. *)
Theorem clusters_partition (doc : dom) (elements : list node)
  (tooFar : number) (cs : list (list node)) :
  clusters doc elements tooFar = Return cs ->
  Permutation (concat cs) elements /\
  Forall (fun c => c <> []) cs /\
  (length cs <= length elements)%nat /\
  (elements <> [] -> cs <> []).
Proof.
  intros Hcs.
  destruct (newDistanceMatrix_outcome doc elements) as [(m & Hm)|Ht];
    [|unfold clusters in Hcs; rewrite Ht in Hcs; discriminate].
  destruct (clusters_returns doc elements tooFar m Hm) as (final & Hrun & _ & Hperm & _).
  rewrite Hrun in Hcs. injection Hcs as <-.
  assert (Hne : Forall (fun c => c <> []) (matrixClusters final)).
  { apply Forall_forall. intros c Hc. unfold matrixClusters in Hc.
    apply in_map_iff in Hc. destruct Hc as (k & <- & _). apply flatten_nonempty. }
  split; [exact Hperm|]. split; [exact Hne|]. split.
  - rewrite <- (Permutation_length Hperm). now apply length_concat_nonempty.
  - intros He Hnil. rewrite Hnil in Hperm. cbn in Hperm.
    apply Permutation_nil in Hperm. congruence.
Qed.

Lemma clusters_partition_witness :
  Permutation (concat [[nSpan]; [nLi]; [nP2; nP1]]) sampleElements /\
  (length [[nSpan]; [nLi]; [nP2; nP1]] <= length sampleElements)%nat.
Proof.
  destruct (clusters_partition sampleDoc sampleElements (Finite 3)
              [[nSpan]; [nLi]; [nP2; nP1]] eq_refl) as (Hp & _ & Hl & _).
  split; [exact Hp | exact Hl].
Defined.

(** X8.  With a limit of 0 or less nothing is merged: [clusters] returns
    every input node as a cluster of its own, in input order.  The same
    holds with a limit of up to 2 when no node occurs twice, since distinct
    nodes are at distance 2 at least. *)
Theorem clusters_low_limit (doc : dom) (elements : list node) (t : Z) :
  ancestorsLast elements ->
  t <= 0 \/ (t <= 2 /\ NoDup elements) ->
  clusters doc elements (Finite t) = Return (map (fun el => [el]) elements).
Proof.
  intros Hsafe Ht.
  destruct (newDistanceMatrix_returns doc elements Hsafe) as (m & Hm).
  destruct (newDistanceMatrix_wellFormed doc _ _ Hm) as [Hwf Hkeys].
  unfold clusters. rewrite Hm. cbn [bind].
  rewrite (mergeLoop_nothing (Finite t) m Hwf).
  - cbn [bind]. unfold matrixClusters. rewrite Hkeys.
    now rewrite singletons_map_flatten.
  - intros e He.
    destruct (newDistanceMatrix_entry doc elements m e Hm He)
      as (i & j & y & x & d & Hij & Hy & Hx & _ & _ & Hd & ->).
    rewrite lt_Finite. apply Z.ltb_ge.
    destruct Ht as [Ht|[Ht Hnd]].
    + pose proof (distance_nonneg doc x y d Hd). lia.
    + assert (Hne : x <> y).
      { intros ->. rewrite NoDup_nth_error in Hnd.
        assert (j = i); [|lia]. apply Hnd; [|congruence].
        apply nth_error_Some. congruence. }
      pose proof (distance_distinct doc x y d Hne Hd). lia.
  - rewrite <- (length_map fst). fold (mkeys (_matrix m)).
    rewrite Hkeys, singletons_length. lia.
Qed.

Lemma clusters_low_limit_witness :
  clusters sampleDoc sampleElements (Finite 2) =
  Return [[nP1]; [nP2]; [nSpan]; [nLi]].
Proof.
  apply (clusters_low_limit sampleDoc sampleElements 2).
  - unfold ancestorsLast, sampleElements.
    repeat first [ apply FOP_nil | apply FOP_cons | apply Forall_nil
                 | apply Forall_cons | (right; reflexivity) ].
  - right. split; [lia|].
    repeat (apply NoDup_cons; [cbn; intuition discriminate|]). apply NoDup_nil.
Defined.

(** X9.  The matrix whose clusters [clusters] returns is reached from the
    new matrix by merges of two distinct live clusters, and it has one
    cluster at most or no stored distance less than [tooFar]: merging goes
    on as long as some two clusters are closer than the limit. *)
Theorem clusters_stops (doc : dom) (elements : list node) (tooFar : number)
  (m : DistanceMatrix) :
  newDistanceMatrix doc elements = Return m ->
  exists final,
    clusters doc elements tooFar = Return (matrixClusters final) /\
    mergedFrom m final /\
    (numClusters final <= 1 \/
     forall e, In e (clustersAndDistances final) ->
               lt (Yield.distance e) tooFar = false).
Proof.
  intros Hm.
  destruct (newDistanceMatrix_wellFormed doc _ _ Hm) as [Hwf Hkeys].
  destruct (mergeLoop_final tooFar m (length elements) m Hwf (mergedFrom_start m))
    as (final & Hrun & _ & Hfrom & Hstop).
  - rewrite <- (length_map fst). fold (mkeys (_matrix m)).
    rewrite Hkeys, singletons_length. lia.
  - exists final. unfold clusters. rewrite Hm. cbn [bind]. rewrite Hrun. auto.
Qed.

Lemma clusters_stops_witness :
  exists final,
    clusters sampleDoc sampleElements (Finite 3) = Return (matrixClusters final) /\
    mergedFrom sampleMatrix final /\
    (numClusters final <= 1 \/
     forall e, In e (clustersAndDistances final) ->
               lt (Yield.distance e) (Finite 3) = false).
Proof.
  exact (clusters_stops sampleDoc sampleElements (Finite 3) sampleMatrix
           sampleMatrix_new).
Defined.

(** ** More on the matrix *)

Section MoreMatrixFacts.

Variable self : DistanceMatrix.
Hypothesis self_wellFormed : wellFormed self.

(** The inner keys of a row are live clusters, none of them the row's
    own. *)
Lemma row_keys_live (x : cluster) (rx : row) :
  mget (_matrix self) x = Some rx ->
  (forall k, In k (mkeys rx) -> live self k) /\ ~ In x (mkeys rx).
Proof.
  intros Hget. destruct self_wellFormed as (Htri & Hnd & _ & _).
  apply get_in in Hget. destruct (in_split _ _ Hget) as (l1 & l2 & E).
  rewrite E in Htri, Hnd. apply triangular_app in Htri. destruct Htri as [_ Htri].
  cbn [app triangular] in Htri. destruct Htri as (Hk & _ & _).
  rewrite keys_app in Hnd. cbn [Map.keys map fst] in Hnd.
  split.
  - intros k Hin. unfold live. rewrite E, keys_app. apply in_or_app. left.
    now rewrite <- Hk.
  - rewrite Hk. intros H. apply (NoDup_remove_2 _ _ _ Hnd). apply in_or_app.
    now left.
Qed.

Lemma live_row (x : cluster) :
  live self x -> exists rx, mget (_matrix self) x = Some rx.
Proof.
  intros Hx. destruct (get_some cluster_eq_dec _ x Hx) as (rx & Hrx & _). eauto.
Qed.

Lemma cachedDistance_ordered l1 (x : cluster) rx l2 (y : cluster) ry l3 :
  _matrix self = l1 ++ (x, rx) :: l2 ++ (y, ry) :: l3 ->
  _cachedDistance self x y = Return (mget ry x) /\
  _cachedDistance self y x = Return (mget ry x) /\
  exists z, mget ry x = Some (Finite z).
Proof.
  intros E. destruct self_wellFormed as (Htri & Hnd & _ & _).
  destruct (triangular_two_rows _ _ _ _ _ _ _ _ Htri Hnd E)
    as (_ & Hky & Hfin & Hgx & Hgy & Hnone & _).
  destruct (get_some cluster_eq_dec ry x) as (v & Hv & Hin).
  { rewrite Hky. apply in_or_app. right. now left. }
  rewrite Forall_forall in Hfin. destruct (Hfin v) as (z & ->).
  { apply in_map_iff. now exists (x, v). }
  unfold _cachedDistance. rewrite Hgx, Hnone, Hgy, Hv. eauto.
Qed.

Lemma cachedDistance_sym (x y : cluster) :
  live self x -> live self y -> x <> y ->
  exists z,
    _cachedDistance self x y = Return (Some (Finite z)) /\
    _cachedDistance self y x = Return (Some (Finite z)).
Proof.
  intros Hx Hy Hne.
  destruct (two_rows _ x y Hx Hy Hne)
    as [(l1 & rx & l2 & ry & l3 & E)|(l1 & ry & l2 & rx & l3 & E)];
    destruct (cachedDistance_ordered _ _ _ _ _ _ _ E) as (H1 & H2 & z & Hz);
    exists z; rewrite H1, H2, Hz; auto.
Qed.

Lemma cachedDistance_self (x : cluster) :
  live self x -> _cachedDistance self x x = Return None.
Proof.
  intros Hx. destruct (live_row x Hx) as (rx & Hrx).
  destruct (row_keys_live x rx Hrx) as [_ Hnot].
  unfold _cachedDistance. rewrite Hrx.
  now rewrite (get_none cluster_eq_dec rx x Hnot).
Qed.

Lemma cachedDistance_missing (x y : cluster) :
  ~ live self x \/ ~ live self y ->
  _cachedDistance self x y = Throw TypeError.
Proof.
  intros H. unfold _cachedDistance.
  destruct (mget (_matrix self) x) as [rx|] eqn:Hrx; [|reflexivity].
  destruct H as [H|H].
  - exfalso. apply H. apply get_in in Hrx. apply in_map_iff. now exists (x, rx).
  - destruct (row_keys_live x rx Hrx) as [Hlive _].
    rewrite (get_none cluster_eq_dec rx y) by (intros Hin; apply H; auto).
    now rewrite (get_none cluster_eq_dec (_matrix self) y H).
Qed.

(** The loop of [merge] throws at the first key other than the merged
    clusters when one of the two is not live. *)
Lemma mergedRow_missing (clusterA clusterB : cluster) :
  ~ live self clusterA \/ (live self clusterA /\ ~ live self clusterB) ->
  forall (outerKeys : list cluster) (newRow : row),
    (forall k, In k outerKeys -> live self k) ->
    (exists x, In x outerKeys /\ x <> clusterA /\ x <> clusterB) ->
    mergedRow self clusterA clusterB outerKeys newRow = Throw TypeError.
Proof.
  intros Hmiss. induction outerKeys as [|k rest IH]; intros newRow Hlive (x & Hx & HxA & HxB);
    [destruct Hx|].
  assert (Hrest : forall k', In k' rest -> live self k')
    by (intros k' Hk'; apply Hlive; now right).
  cbn [mergedRow].
  destruct (cluster_eq_dec k clusterA) as [->|HkA].
  { apply IH; [exact Hrest|]. destruct Hx as [<-|Hx]; [congruence | eauto]. }
  destruct (cluster_eq_dec k clusterB) as [->|HkB].
  { apply IH; [exact Hrest|]. destruct Hx as [<-|Hx]; [congruence | eauto]. }
  destruct Hmiss as [HA|[HA HB]].
  - rewrite cachedDistance_missing by (now left). reflexivity.
  - destruct (cachedDistance_sym clusterA k HA (Hlive k (or_introl eq_refl)))
      as (z & -> & _); [congruence|].
    cbn [bind]. rewrite cachedDistance_missing by (now left). reflexivity.
Qed.

End MoreMatrixFacts.

(** X10.  [_cachedDistance] on a well-formed matrix: between two distinct
    live clusters it finds the same finite distance whichever of the two is
    named first; between a live cluster and itself it answers [undefined];
    and when either cluster is not live it throws a [TypeError]. *)
Theorem cachedDistance_lookup (self : DistanceMatrix) :
  wellFormed self ->
  (forall x y, live self x -> live self y -> x <> y ->
     exists z, _cachedDistance self x y = Return (Some (Finite z)) /\
               _cachedDistance self y x = Return (Some (Finite z))) /\
  (forall x, live self x -> _cachedDistance self x x = Return None) /\
  (forall x y, ~ live self x \/ ~ live self y ->
     _cachedDistance self x y = Throw TypeError).
Proof.
  intros Hwf. split; [|split].
  - apply cachedDistance_sym, Hwf.
  - apply cachedDistance_self, Hwf.
  - apply cachedDistance_missing, Hwf.
Qed.

Lemma cachedDistance_lookup_witness :
  (exists z, _cachedDistance sampleMatrix (Singleton 0 nP1) (Singleton 2 nSpan) =
             Return (Some (Finite z)) /\
             _cachedDistance sampleMatrix (Singleton 2 nSpan) (Singleton 0 nP1) =
             Return (Some (Finite z))) /\
  _cachedDistance sampleMatrix (Singleton 0 nP1) (Singleton 0 nP1) = Return None /\
  _cachedDistance sampleMatrix (Singleton 9 nUl) (Singleton 0 nP1) = Throw TypeError.
Proof.
  destruct (cachedDistance_lookup sampleMatrix sampleMatrix_wellFormed)
    as (Hsym & Hself & Hmiss).
  split; [|split].
  - apply Hsym; [cbn; tauto | cbn; tauto | discriminate].
  - apply Hself. cbn. tauto.
  - apply Hmiss. left. cbn. intuition discriminate.
Defined.

(** X11.  [merge] of a live cluster with itself returns: the cluster is
    replaced by a pair of itself and itself, so the table has as many rows
    as before, while [numClusters] is one less and no longer the number of
    rows. *)
Theorem merge_with_itself (self : DistanceMatrix) (clusterA : cluster) :
  wellFormed self -> live self clusterA ->
  exists self',
    merge self clusterA clusterA = Return self' /\
    mkeys (_matrix self') =
      without clusterA (mkeys (_matrix self)) ++
      [Pair (allocated self) clusterA clusterA] /\
    length (_matrix self') = length (_matrix self) /\
    numClusters self' = Z.of_nat (length (_matrix self')) - 1.
Proof.
  intros Hwf HA.
  destruct (merge_returns self Hwf clusterA clusterA HA HA)
    as (newRow & Hrun & _).
  eexists. split; [exact Hrun|]. cbn [_matrix numClusters _numClusters].
  destruct Hwf as (_ & Hnd & Hnum & _).
  assert (Hkeys : mkeys (trimmedRows self clusterA clusterA ++
                         [(mergedCluster self clusterA clusterA, newRow)]) =
                  without clusterA (mkeys (_matrix self)) ++
                  [Pair (allocated self) clusterA clusterA]).
  { rewrite keys_app. unfold trimmedRows. rewrite keys_trim.
    rewrite (without_absent clusterA (without clusterA _)); [reflexivity|].
    rewrite without_in. tauto. }
  assert (Hlen : length (trimmedRows self clusterA clusterA ++
                         [(mergedCluster self clusterA clusterA, newRow)]) =
                 length (_matrix self)).
  { rewrite <- (length_map fst (trimmedRows self clusterA clusterA ++ _)).
    fold (mkeys (trimmedRows self clusterA clusterA ++
                 [(mergedCluster self clusterA clusterA, newRow)])).
    rewrite Hkeys, length_app. cbn [length].
    pose proof (without_length clusterA _ Hnd HA) as H.
    unfold Map.keys in H at 2. rewrite length_map in H. lia. }
  split; [exact Hkeys|]. split; [exact Hlen|]. rewrite Hlen. lia.
Qed.

Lemma merge_with_itself_witness :
  exists self',
    merge sampleMatrix (Singleton 1 nP2) (Singleton 1 nP2) = Return self' /\
    length (_matrix self') = 4%nat /\ numClusters self' = 3.
Proof.
  destruct (merge_with_itself sampleMatrix (Singleton 1 nP2) sampleMatrix_wellFormed)
    as (self' & Hrun & _ & Hlen & Hnum).
  - cbn. tauto.
  - exists self'. split; [exact Hrun|]. split; [exact Hlen|].
    rewrite Hnum, Hlen. reflexivity.
Defined.

(** X12.  [merge] throws a [TypeError] when one of the two clusters is not
    live and some live cluster is neither of the two: the first such
    cluster has no cached distance to the missing one. *)
Theorem merge_missing_cluster (self : DistanceMatrix)
  (clusterA clusterB x : cluster) :
  wellFormed self ->
  ~ live self clusterA \/ ~ live self clusterB ->
  live self x -> x <> clusterA -> x <> clusterB ->
  merge self clusterA clusterB = Throw TypeError.
Proof.
  intros Hwf Hmiss Hx HxA HxB. unfold merge.
  rewrite (mergedRow_missing self Hwf clusterA clusterB); [reflexivity | | auto | eauto].
  destruct (in_dec cluster_eq_dec clusterA (mkeys (_matrix self))) as [HA|HA].
  - right. split; [exact HA|]. destruct Hmiss as [H|H]; [contradiction | exact H].
  - now left.
Qed.

Lemma merge_missing_cluster_witness :
  merge sampleMatrix (Singleton 9 nUl) (Singleton 0 nP1) = Throw TypeError.
Proof.
  apply (merge_missing_cluster sampleMatrix (Singleton 9 nUl) (Singleton 0 nP1)
           (Singleton 1 nP2) sampleMatrix_wellFormed).
  - left. cbn. intuition discriminate.
  - cbn. tauto.
  - discriminate.
  - discriminate.
Defined.

(** X15.  With two clusters or more, what [closest] returns can be merged:
    its [a] and [b] are two distinct live clusters, the row of [b] coming
    before the row of [a], and [merge a b] returns a well-formed matrix. *)
Theorem closest_can_be_merged (self : DistanceMatrix) :
  wellFormed self -> 2 <= numClusters self ->
  exists e self',
    closest self = Return e /\
    (exists l1 rb l2 ra l3,
       _matrix self = l1 ++ (Yield.b e, rb) :: l2 ++ (Yield.a e, ra) :: l3) /\
    merge self (Yield.a e) (Yield.b e) = Return self' /\
    wellFormed self'.
Proof.
  intros Hwf Hn.
  destruct (closest_first self Hwf Hn) as (e & pre & post & Hc & He & _).
  assert (Hin : In e (clustersAndDistances self))
    by (rewrite He; apply in_or_app; right; now left).
  destruct (entry_live self e Hwf Hin) as (Ha & Hb & Hab & _).
  destruct (merge_wellFormed self Hwf _ _ Ha Hb Hab) as (self' & Hm & Hwf' & _).
  exists e, self'. split; [exact Hc|]. split; [|auto].
  destruct (two_rows _ _ _ Ha Hb Hab)
    as [(l1 & ra & l2 & rb & l3 & E)|(l1 & rb & l2 & ra & l3 & E)]; [|eauto 6].
  exfalso. destruct Hwf as (Htri & Hnd & _ & _).
  destruct (triangular_two_rows _ _ _ _ _ _ _ _ Htri Hnd E)
    as (_ & _ & _ & Hga & _ & Hnone & _).
  apply in_clustersAndDistances in Hin. destruct Hin as (r & Hr & Hd).
  apply (get_of_in cluster_eq_dec _ _ _ Hnd) in Hr. rewrite Hga in Hr.
  injection Hr as <-.
  destruct (get_some cluster_eq_dec ra (Yield.b e)) as (v & Hv & _).
  { apply in_map_iff. now exists (Yield.b e, Yield.distance e). }
  congruence.
Qed.

Lemma closest_can_be_merged_witness :
  exists e self',
    closest sampleMatrix = Return e /\
    (exists l1 rb l2 ra l3,
       _matrix sampleMatrix =
       l1 ++ (Yield.b e, rb) :: l2 ++ (Yield.a e, ra) :: l3) /\
    merge sampleMatrix (Yield.a e) (Yield.b e) = Return self' /\
    wellFormed self'.
Proof.
  apply (closest_can_be_merged sampleMatrix sampleMatrix_wellFormed).
  cbn. lia.
Defined.

(** X16.  After [merge clusterA clusterB] of two distinct live clusters,
    [clusters()] lists the other clusters as before, in their order, and
    then the merged one: the nodes of [clusterA] followed by the nodes of
    [clusterB]. *)
Theorem merge_clusters (self : DistanceMatrix) (clusterA clusterB : cluster) :
  wellFormed self -> live self clusterA -> live self clusterB ->
  clusterA <> clusterB ->
  exists self',
    merge self clusterA clusterB = Return self' /\
    matrixClusters self' =
      map flatten (without clusterB (without clusterA (mkeys (_matrix self)))) ++
      [flatten clusterA ++ flatten clusterB].
Proof.
  intros Hwf HA HB Hne.
  destruct (merge_wellFormed self Hwf _ _ HA HB Hne) as (self' & Hm & _ & Hkeys & _).
  exists self'. split; [exact Hm|]. unfold matrixClusters.
  now rewrite Hkeys, map_app.
Qed.

Lemma merge_clusters_witness :
  exists self',
    merge sampleMatrix (Singleton 1 nP2) (Singleton 0 nP1) = Return self' /\
    matrixClusters self' = [[nSpan]; [nLi]; [nP2; nP1]].
Proof.
  destruct (merge_clusters sampleMatrix (Singleton 1 nP2) (Singleton 0 nP1)
              sampleMatrix_wellFormed) as (self' & Hm & Hc).
  - cbn. tauto.
  - cbn. tauto.
  - discriminate.
  - exists self'. split; [exact Hm | exact Hc].
Defined.

(** ** Lookups after a merge *)

Section AfterMergeFacts.

Lemma get_app_some {V : Type} (m m' : @Map.t cluster V) (k : cluster) (v : V) :
  mget m k = Some v -> mget (m ++ m') k = Some v.
Proof.
  induction m as [|[k' v'] m IH]; [discriminate|].
  cbn [app Map.get]. destruct (cluster_eq_dec k k'); auto.
Qed.

Lemma get_map_values {V W : Type} (f : V -> W) (m : @Map.t cluster V)
  (k : cluster) :
  mget (map (fun entry => (fst entry, f (snd entry))) m) k =
  option_map f (mget m k).
Proof.
  induction m as [|[k' v'] m IH]; [reflexivity|].
  cbn [map fst snd Map.get]. destruct (cluster_eq_dec k k'); [reflexivity | exact IH].
Qed.

Variable self : DistanceMatrix.
Hypothesis self_wellFormed : wellFormed self.
Variables clusterA clusterB : cluster.
Hypothesis liveA : live self clusterA.
Hypothesis liveB : live self clusterB.

Notation trimmed := (trimmedRows self clusterA clusterB).
Notation merged := (mergedCluster self clusterA clusterB).

Lemma get_trimmed (x : cluster) (rx : row) :
  mget (_matrix self) x = Some rx -> x <> clusterA -> x <> clusterB ->
  mget trimmed x = Some (mdelete (mdelete rx clusterA) clusterB).
Proof.
  intros Hrx HxA HxB. unfold trimmedRows.
  rewrite (get_map_values (fun r : row => mdelete (mdelete r clusterA) clusterB)).
  rewrite !get_delete_other by congruence. now rewrite Hrx.
Qed.

Lemma get_trimmed_row (rx : row) (y : cluster) :
  y <> clusterA -> y <> clusterB ->
  mget (mdelete (mdelete rx clusterA) clusterB) y = mget rx y.
Proof. intros HyA HyB. now rewrite !get_delete_other by congruence. Qed.

(** Between clusters that are not merged, the cache answers after the merge
    what it answered before. *)
Lemma cachedDistance_after_merge (newRow : row) (num : Z) (next : nat)
  (x y : cluster) :
  live self x -> live self y ->
  x <> clusterA -> x <> clusterB -> y <> clusterA -> y <> clusterB ->
  _cachedDistance
    {| _matrix := trimmed ++ [(merged, newRow)];
       _numClusters := num; allocated := next |} x y =
  _cachedDistance self x y.
Proof.
  intros Hx Hy HxA HxB HyA HyB.
  destruct (live_row self x Hx) as (rx & Hrx).
  destruct (live_row self y Hy) as (ry & Hry).
  unfold _cachedDistance. cbn [_matrix].
  rewrite (get_app_some _ _ _ _ (get_trimmed x rx Hrx HxA HxB)).
  rewrite (get_app_some _ _ _ _ (get_trimmed y ry Hry HyA HyB)).
  rewrite Hrx, Hry, !get_trimmed_row by assumption. reflexivity.
Qed.

(** The merged cluster and another one: the new row is found from either
    side. *)
Lemma cachedDistance_merged (newRow : row) (num : Z) (next : nat) (x : cluster) :
  live self x -> x <> clusterA -> x <> clusterB ->
  mkeys newRow = without clusterB (without clusterA (mkeys (_matrix self))) ->
  let self' := {| _matrix := trimmed ++ [(merged, newRow)];
                  _numClusters := num; allocated := next |} in
  _cachedDistance self' merged x = Return (mget newRow x) /\
  _cachedDistance self' x merged = Return (mget newRow x) /\
  exists v, mget newRow x = Some v.
Proof.
  intros Hx HxA HxB Hkeys self'.
  pose proof (mergedCluster_fresh self self_wellFormed clusterA clusterB) as Hfresh.
  assert (Hnew : mget (_matrix self') merged = Some newRow).
  { cbn [_matrix self']. apply get_middle. unfold trimmedRows.
    rewrite keys_trim, !without_in. tauto. }
  destruct (get_some cluster_eq_dec newRow x) as (v & Hv & _).
  { rewrite Hkeys, !without_in. auto. }
  destruct (live_row self x Hx) as (rx & Hrx).
  destruct (row_keys_live self self_wellFormed x rx Hrx) as [Hlive _].
  assert (Hx' : mget (_matrix self') x =
                Some (mdelete (mdelete rx clusterA) clusterB)).
  { cbn [_matrix self']. apply get_app_some. now apply get_trimmed. }
  assert (Hnone : mget (mdelete (mdelete rx clusterA) clusterB) merged = None).
  { apply get_none. rewrite !keys_delete, !filter_In.
    intros [[H _] _]. apply Hfresh. now apply Hlive. }
  unfold _cachedDistance. rewrite Hnew, Hx', Hnone, Hv. eauto.
Qed.

End AfterMergeFacts.

(** What the cache answers after a merge. *)
Lemma merge_lookups (self : DistanceMatrix) (clusterA clusterB : cluster) :
  wellFormed self -> live self clusterA -> live self clusterB ->
  clusterA <> clusterB ->
  exists self',
    merge self clusterA clusterB = Return self' /\
    (forall x y,
       live self x -> live self y ->
       x <> clusterA -> x <> clusterB -> y <> clusterA -> y <> clusterB ->
       _cachedDistance self' x y = _cachedDistance self x y) /\
    (forall x,
       live self x -> x <> clusterA -> x <> clusterB ->
       exists dA dB,
         _cachedDistance self clusterA x = Return (Some (Finite dA)) /\
         _cachedDistance self clusterB x = Return (Some (Finite dB)) /\
         _cachedDistance self' (mergedCluster self clusterA clusterB) x =
           Return (Some (Finite (Z.min dA dB))) /\
         _cachedDistance self' x (mergedCluster self clusterA clusterB) =
           Return (Some (Finite (Z.min dA dB)))).
Proof.
  intros Hwf HA HB Hne.
  destruct (merge_returns self Hwf clusterA clusterB HA HB)
    as (newRow & Hrun & Hkeys & _ & Hnew).
  eexists. split; [exact Hrun|]. split.
  - intros x y Hx Hy HxA HxB HyA HyB.
    now apply cachedDistance_after_merge.
  - intros x Hx HxA HxB.
    destruct (cachedDistance_live self Hwf clusterA x HA Hx) as (dA & HcA & _);
      [congruence|].
    destruct (cachedDistance_live self Hwf clusterB x HB Hx) as (dB & HcB & _);
      [congruence|].
    destruct (Hnew x Hx HxA HxB) as (dA' & dB' & HcA' & HcB' & Hget).
    rewrite HcA in HcA'. rewrite HcB in HcB'.
    injection HcA' as <-. injection HcB' as <-. cbn [Math_min] in Hget.
    destruct (cachedDistance_merged self Hwf clusterA clusterB newRow
                (_numClusters self - 1) (S (allocated self)) x Hx HxA HxB Hkeys)
      as (H1 & H2 & _).
    exists dA, dB. rewrite H1, H2, Hget. auto.
Qed.


(** X13.  [merge clusterA clusterB] of two distinct live clusters leaves
    the cached distance between any two of the other clusters as it was;
    and between the merged cluster and any other cluster [x] the cache
    then answers, whichever of the two is named first, the lesser of what
    it answered for [clusterA] and [x] and for [clusterB] and [x]. *)
Theorem merge_keeps_distances (self : DistanceMatrix) (clusterA clusterB : cluster) :
  wellFormed self -> live self clusterA -> live self clusterB ->
  clusterA <> clusterB ->
  exists self',
    merge self clusterA clusterB = Return self' /\
    (forall x y,
       live self x -> live self y ->
       x <> clusterA -> x <> clusterB -> y <> clusterA -> y <> clusterB ->
       _cachedDistance self' x y = _cachedDistance self x y) /\
    (forall x,
       live self x -> x <> clusterA -> x <> clusterB ->
       exists dA dB,
         _cachedDistance self clusterA x = Return (Some (Finite dA)) /\
         _cachedDistance self clusterB x = Return (Some (Finite dB)) /\
         _cachedDistance self' (mergedCluster self clusterA clusterB) x =
           Return (Some (Finite (Z.min dA dB))) /\
         _cachedDistance self' x (mergedCluster self clusterA clusterB) =
           Return (Some (Finite (Z.min dA dB)))).
Proof. apply merge_lookups. Qed.

Lemma merge_keeps_distances_witness :
  exists self',
    merge sampleMatrix (Singleton 1 nP2) (Singleton 0 nP1) = Return self' /\
    _cachedDistance self' (Singleton 3 nLi) (Singleton 2 nSpan) =
    _cachedDistance sampleMatrix (Singleton 3 nLi) (Singleton 2 nSpan).
Proof.
  destruct (merge_keeps_distances sampleMatrix (Singleton 1 nP2) (Singleton 0 nP1)
              sampleMatrix_wellFormed) as (self' & Hm & Hkeep & _).
  - cbn. tauto.
  - cbn. tauto.
  - discriminate.
  - exists self'. split; [exact Hm|].
    apply Hkeep; first [discriminate | cbn; tauto].
Defined.

(** ** Single linkage *)

Section LinkageFacts.

Variable start : DistanceMatrix.
Hypothesis start_wellFormed : wellFormed start.
Hypothesis start_singletons : forall k, live start k -> leaves k = [k].

Lemma linkage_invariant (self : DistanceMatrix) :
  mergedFrom start self ->
  wellFormed self /\
  (forall X, live self X -> forall x, In x (leaves X) -> live start x) /\
  (forall X Y, live self X -> live self Y -> X <> Y ->
     forall x, In x (leaves X) -> ~ In x (leaves Y)) /\
  (forall X Y, live self X -> live self Y -> X <> Y -> linked start self X Y).
Proof.
  induction 1 as [|self A B self' _ IH HA HB Hne Hm].
  - split; [exact start_wellFormed|]. split; [|split].
    + intros X HX x Hx. rewrite (start_singletons X HX) in Hx.
      destruct Hx as [<-|[]]. exact HX.
    + intros X Y HX HY Hne x Hx Hy.
      rewrite (start_singletons X HX) in Hx. rewrite (start_singletons Y HY) in Hy.
      destruct Hx as [<-|[]]. destruct Hy as [<-|[]]. congruence.
    + intros X Y HX HY Hne.
      destruct (cachedDistance_sym start start_wellFormed X Y HX HY Hne) as (d & Hd & _).
      exists d. split; [exact Hd|].
      rewrite (start_singletons X HX), (start_singletons Y HY). split.
      * exists X, Y. cbn. auto.
      * intros x y z [<-|[]] [<-|[]] Hz. rewrite Hd in Hz. injection Hz as <-. lia.
  - destruct IH as (Hwf & Hin & Hdisj & Hlink).
    destruct (merge_wellFormed self Hwf A B HA HB Hne) as (m' & Hm' & Hwf' & Hkeys & _).
    rewrite Hm in Hm'. injection Hm' as <-.
    destruct (merge_lookups self A B Hwf HA HB Hne) as (m' & Hm' & Hkeep & Hnew).
    rewrite Hm in Hm'. injection Hm' as <-.
    set (mc := mergedCluster self A B) in *.
    assert (Hmc : leaves mc = leaves A ++ leaves B) by reflexivity.
    assert (Hlive' : forall X, live self' X ->
                       (live self X /\ X <> A /\ X <> B) \/ X = mc).
    { intros X HX. unfold live in HX. rewrite Hkeys in HX.
      apply in_app_or in HX. destruct HX as [HX|[<-|[]]]; [left | now right].
      apply without_in in HX. destruct HX as [HX HXB].
      apply without_in in HX. tauto. }
    split; [exact Hwf'|]. split; [|split].
    + intros X HX x Hx. destruct (Hlive' X HX) as [(HX0 & _)| ->].
      * now apply (Hin X).
      * rewrite Hmc in Hx. apply in_app_or in Hx.
        destruct Hx as [Hx|Hx]; [now apply (Hin A) | now apply (Hin B)].
    + intros X Y HX HY HXY x Hx Hy.
      destruct (Hlive' X HX) as [(HX0 & HXA & HXB)| ->];
        destruct (Hlive' Y HY) as [(HY0 & HYA & HYB)| ->].
      * now apply (Hdisj X Y HX0 HY0 HXY x).
      * rewrite Hmc in Hy. apply in_app_or in Hy. destruct Hy as [Hy|Hy].
        -- now apply (Hdisj X A HX0 HA HXA x).
        -- now apply (Hdisj X B HX0 HB HXB x).
      * rewrite Hmc in Hx. apply in_app_or in Hx. destruct Hx as [Hx|Hx].
        -- apply (Hdisj A Y HA HY0 (not_eq_sym HYA) x Hx Hy).
        -- apply (Hdisj B Y HB HY0 (not_eq_sym HYB) x Hx Hy).
      * congruence.
    + intros X Y HX HY HXY.
      destruct (Hlive' X HX) as [(HX0 & HXA & HXB)| ->];
        destruct (Hlive' Y HY) as [(HY0 & HYA & HYB)| ->].
      * destruct (Hlink X Y HX0 HY0 HXY) as (d & Hd & Hex & Hle).
        exists d. split; [|auto]. now rewrite Hkeep.
      * (* the merged cluster named second *)
        destruct (Hnew X HX0 HXA HXB) as (dA & dB & HcA & HcB & _ & Hd).
        destruct (cachedDistance_sym self Hwf X A HX0 HA HXA) as (zA & HXA' & HAX).
        destruct (cachedDistance_sym self Hwf X B HX0 HB HXB) as (zB & HXB' & HBX).
        rewrite HcA in HAX. injection HAX as ->.
        rewrite HcB in HBX. injection HBX as ->.
        destruct (Hlink X A HX0 HA HXA) as (d1 & Hd1 & (x1 & y1 & Hx1 & Hy1 & Hs1) & Hle1).
        destruct (Hlink X B HX0 HB HXB) as (d2 & Hd2 & (x2 & y2 & Hx2 & Hy2 & Hs2) & Hle2).
        rewrite HXA' in Hd1. injection Hd1 as <-.
        rewrite HXB' in Hd2. injection Hd2 as <-.
        exists (Z.min zA zB). split; [exact Hd|]. split.
        -- destruct (Z.min_spec zA zB) as [[_ ->]|[_ ->]].
           ++ exists x1, y1. rewrite Hmc. split; [exact Hx1|].
              split; [apply in_or_app; now left | exact Hs1].
           ++ exists x2, y2. rewrite Hmc. split; [exact Hx2|].
              split; [apply in_or_app; now right | exact Hs2].
        -- intros x y z Hx Hy Hz. rewrite Hmc in Hy. apply in_app_or in Hy.
           destruct Hy as [Hy|Hy].
           ++ specialize (Hle1 x y z Hx Hy Hz). lia.
           ++ specialize (Hle2 x y z Hx Hy Hz). lia.
      * (* the merged cluster named first *)
        destruct (Hnew Y HY0 HYA HYB) as (dA & dB & HcA & HcB & Hd & _).
        destruct (Hlink A Y HA HY0 (not_eq_sym HYA))
          as (d1 & Hd1 & (x1 & y1 & Hx1 & Hy1 & Hs1) & Hle1).
        destruct (Hlink B Y HB HY0 (not_eq_sym HYB))
          as (d2 & Hd2 & (x2 & y2 & Hx2 & Hy2 & Hs2) & Hle2).
        rewrite HcA in Hd1. injection Hd1 as <-.
        rewrite HcB in Hd2. injection Hd2 as <-.
        exists (Z.min dA dB). split; [exact Hd|]. split.
        -- destruct (Z.min_spec dA dB) as [[_ ->]|[_ ->]].
           ++ exists x1, y1. rewrite Hmc. split; [apply in_or_app; now left|].
              split; [exact Hy1 | exact Hs1].
           ++ exists x2, y2. rewrite Hmc. split; [apply in_or_app; now right|].
              split; [exact Hy2 | exact Hs2].
        -- intros x y z Hx Hy Hz. rewrite Hmc in Hx. apply in_app_or in Hx.
           destruct Hx as [Hx|Hx].
           ++ specialize (Hle1 x y z Hx Hy Hz). lia.
           ++ specialize (Hle2 x y z Hx Hy Hz). lia.
      * congruence.
Qed.

End LinkageFacts.

(** X14.  Single linkage.  In every matrix that merges of two distinct live
    clusters lead to from a new matrix, the distance cached for two live
    clusters is the least of the distances that the new matrix stored
    between a node of the one and a node of the other: it is the distance of
    one such pair of singleton clusters, and none of these pairs is
    closer. *)
Theorem merges_are_single_linkage (doc : dom) (elements : list node)
  (start self : DistanceMatrix) (X Y : cluster) :
  newDistanceMatrix doc elements = Return start ->
  mergedFrom start self ->
  live self X -> live self Y -> X <> Y ->
  linked start self X Y.
Proof.
  intros Hnew Hfrom HX HY Hne.
  destruct (newDistanceMatrix_wellFormed doc _ _ Hnew) as [Hwf Hkeys].
  refine (proj2 (proj2 (proj2 (linkage_invariant start Hwf _ self Hfrom)))
            X Y HX HY Hne).
  intros k Hk. unfold live in Hk. rewrite Hkeys in Hk.
  apply singletons_in in Hk. destruct Hk as (id & el & -> & _). reflexivity.
Qed.

Lemma merges_are_single_linkage_witness :
  linked sampleMatrix sampleMerged
    (Pair 4 (Singleton 1 nP2) (Singleton 0 nP1)) (Singleton 2 nSpan).
Proof.
  apply (merges_are_single_linkage sampleDoc sampleElements sampleMatrix sampleMerged).
  - reflexivity.
  - apply (mergedFrom_merge sampleMatrix sampleMatrix
             (Singleton 1 nP2) (Singleton 0 nP1) sampleMerged).
    + apply mergedFrom_start.
    + cbn. tauto.
    + cbn. tauto.
    + discriminate.
    + reflexivity.
  - cbn. tauto.
  - cbn. tauto.
  - discriminate.
Defined.
